(** * CS2 Market Analyzer: a shallow embedding of the price-comparison core

    The first part holds the definitions, module by module as in the
    repository:
    - [PyStr]        the handful of [str] methods the code calls;
    - [Parser]       [parse_market_hash_name] / [build_market_hash_name] (app.py);
    - [Matcher]      [_norm], [_simplify], [_match_score],
                     [skinport_find_min_price_usd] (src/market_clients.py);
    - [Fees]         [apply_buyer_total_usd], [apply_seller_net_usd] (src/fees.py);
    - [Normalizer]   [enforce_scm_cap_display] (src/normalizer.py);
    - [Orchestrator] the "Run check" loop (app.py);
    - [Watchlist]    the session watchlist helpers (app.py);
    - [Html], [Grid], [Gallery], [Search], [CardKeys]
                     [_strip_html], the gallery grid, [group_by_base],
                     [steam_search_items], the cards' default wear and
                     widget keys (app.py);
    - [PriceText]    [_parse_price_text] (src/market_clients.py).
    The second part holds the properties, in the same order.

    Python [str] values are sequences of Unicode code points, so a string is a
    [list N]; Python [float] is binary64, modelled by the kernel's primitive
    [float]; Python [int] is [Z]; [None] is the [None] of [option]. *)

From Stdlib Require Import ZArith NArith Lia Floats.
From stdpp Require Import base option list sorting strings gmap.

(** ** Python strings *)

Module PyStr.

(** A string is the list of its code points. *)
Abbreviation pystr := (list N).

(** An ASCII literal as a Python string. *)
Definition str_of (s : string) : pystr :=
  (λ a, Ascii.N_of_ascii a) <$> String.list_ascii_of_string s.

(** [str.isspace] on one code point: the characters [str.strip()] removes and
    the regular-expression class [\s] matches on a [str] pattern. *)
Definition is_space (c : N) : bool :=
  ((9 <=? c) && (c <=? 13)
   || (28 <=? c) && (c <=? 32)
   || (c =? 133) || (c =? 160) || (c =? 5760)
   || (8192 <=? c) && (c <=? 8202)
   || (c =? 8232) || (c =? 8233) || (c =? 8239) || (c =? 8287)
   || (c =? 12288))%N.

(** [s.lstrip()], [s.rstrip()], [s.strip()]. *)
Fixpoint lstrip (s : pystr) : pystr :=
  match s with
  | c :: rest => if is_space c then lstrip rest else s
  | [] => []
  end.

Definition rstrip (s : pystr) : pystr := reverse (lstrip (reverse s)).

Definition strip (s : pystr) : pystr := rstrip (lstrip s).

(** [s.startswith(p)]. *)
Fixpoint startswith (p s : pystr) : bool :=
  match p, s with
  | [], _ => true
  | _ :: _, [] => false
  | a :: p', b :: s' => (a =? b)%N && startswith p' s'
  end.

(** [p in s] for strings: [p] occurs in [s] as a contiguous block. *)
Fixpoint contains (p s : pystr) : bool :=
  startswith p s ||
  match s with
  | [] => false
  | _ :: s' => contains p s'
  end.

(** [c in s] for a one-character [c]. *)
Definition has_char (c : N) (s : pystr) : bool := existsb (N.eqb c) s.

(** [s.replace(c, "")] for a one-character [c]: every occurrence goes. *)
Definition remove_char (c : N) (s : pystr) : pystr :=
  List.filter (λ x, negb (x =? c)%N) s.

(** [s.rfind(c)] for a one-character [c]: the highest index holding [c]. *)
Fixpoint rfind_from (c : N) (s : pystr) (i : nat) (last : option nat) : option nat :=
  match s with
  | [] => last
  | x :: rest => rfind_from c rest (S i) (if (x =? c)%N then Some i else last)
  end.

Definition rfind (c : N) (s : pystr) : option nat := rfind_from c s 0 None.

(** String equality [a == b]. *)
Definition str_eqb (a b : pystr) : bool := bool_decide (a = b).

(** [str.lower()] restricted to ASCII letters.  Python's [lower] consults the
    Unicode case tables; it coincides with this function on ASCII text, and the
    matcher below is stated for an arbitrary lowering function. *)
Definition ascii_lower_char (c : N) : N :=
  if ((65 <=? c) && (c <=? 90))%N then (c + 32)%N else c.

Definition ascii_lower (s : pystr) : pystr := ascii_lower_char <$> s.

End PyStr.

Import PyStr.

(** ** Identifier parser (app.py) *)

Module Parser.

Definition WEARS : list pystr :=
  [ str_of "Factory New"; str_of "Minimal Wear"; str_of "Field-Tested";
    str_of "Well-Worn"; str_of "Battle-Scarred" ].

(** ["StatTrak™ "] : the trade-mark sign is U+2122. *)
Definition STATTRAK_PREFIX : pystr := str_of "StatTrak" ++ [8482; 32]%N.

Definition SOUVENIR_PREFIX : pystr := str_of "Souvenir ".

Definition LPAREN : N := 40.
Definition RPAREN : N := 41.

Record parsed := {
  market_hash_name : pystr;
  is_stattrak : bool;
  is_souvenir : bool;
  base_name : pystr;
  wear : option pystr
}.

(** The part of the pattern after its leading [\s]:
    [\((Factory New|Minimal Wear|Field-Tested|Well-Worn|Battle-Scarred)\)\s*$].
    The alternatives are tried in order; [\s*$] succeeds exactly when only
    whitespace is left (a final newline is whitespace too). *)
Fixpoint match_wear_tail_in (tiers : list pystr) (s : pystr) : option pystr :=
  match tiers with
  | [] => None
  | w :: tiers' =>
      let lit := LPAREN :: w ++ [RPAREN] in
      if startswith lit s && forallb is_space (drop (length lit) s)
      then Some w
      else match_wear_tail_in tiers' s
  end.

Definition match_wear_tail : pystr → option pystr := match_wear_tail_in WEARS.

(** [re.search(pattern, name)]: the leftmost position where the pattern
    matches, as [(m.start(), m.group(1))].  [i] is the index of the head of
    [name] in the string searched. *)
Fixpoint re_search_wear (name : pystr) (i : nat) : option (nat * pystr) :=
  match name with
  | [] => None
  | c :: rest =>
      if is_space c then
        match match_wear_tail rest with
        | Some w => Some (i, w)
        | None => re_search_wear rest (S i)
        end
      else re_search_wear rest (S i)
  end.

Definition parse_market_hash_name (mh0 : pystr) : parsed :=
  let mh := strip mh0 in
  let is_st := startswith STATTRAK_PREFIX mh in
  let is_souv := startswith SOUVENIR_PREFIX mh in
  let name := mh in
  let name := if is_st then drop (length STATTRAK_PREFIX) name else name in
  let name := if is_souv then drop (length SOUVENIR_PREFIX) name else name in
  match re_search_wear name 0 with
  | Some (start, w) =>
      {| market_hash_name := mh; is_stattrak := is_st; is_souvenir := is_souv;
         base_name := strip (take start name); wear := Some w |}
  | None =>
      {| market_hash_name := mh; is_stattrak := is_st; is_souvenir := is_souv;
         base_name := strip name; wear := None |}
  end.

Definition build_market_hash_name (base_name0 wear0 : pystr) (stattrak : bool) : pystr :=
  let base_name := strip base_name0 in
  let wear := strip wear0 in
  let mh := base_name ++ [32%N; LPAREN] ++ wear ++ [RPAREN] in
  if stattrak then STATTRAK_PREFIX ++ mh else mh.

End Parser.

Import Parser.

(** ** Binary64 values *)

Module Binary64.

(** The decoded form of a float is a NaN. *)
Definition sf_is_nan (x : spec_float) : bool :=
  match x with S754_nan => true | _ => false end.

End Binary64.

(** ** Fuzzy catalog matcher (src/market_clients.py) *)

Module Matcher.

(** The black star that marks knives and gloves, U+2605. *)
Definition STAR : N := 9733.

(** One record of the Skinport catalogue: [it.get("market_hash_name")] and
    [it.get("min_price")], a number or null. *)
Record item := {
  item_name : option pystr;
  min_price : option float
}.

(** A candidate is the tuple [(val, reason, score)]. *)
Definition candidate : Type := float * pystr * Z.

Definition nonempty (s : pystr) : bool :=
  match s with [] => false | _ :: _ => true end.

Definition _match_score (target candidate : pystr) : Z :=
  if str_eqb candidate target then 100
  else
    let score := 0%Z in
    let score := if startswith target candidate then (score + 50)%Z else score in
    let score := if contains target candidate then (score + 30)%Z else score in
    (score - Z.abs (Z.of_nat (length candidate) - Z.of_nat (length target)) `div` 2)%Z.

(** The sort key [(x[0], -x[2])] and Python's [<] on such pairs: the first
    components decide unless they compare equal. *)
Definition sort_key (c : candidate) : float * Z := (c.1.1, (- c.2)%Z).

Definition key_lt (a b : float * Z) : bool :=
  if PrimFloat.eqb a.1 b.1 then (a.2 <? b.2)%Z else PrimFloat.ltb a.1 b.1.

(** [list.sort(key=...)] is stable.  On keys that [<] orders (no NaN among
    them) the outcome of a stable sort is unique; it is computed here by
    insertion, an element going in front of the first one that is not
    strictly smaller. *)
Fixpoint insert_by {A K} (key : A → K) (lt : K → K → bool) (x : A) (l : list A) : list A :=
  match l with
  | [] => [x]
  | y :: l' => if lt (key y) (key x) then y :: insert_by key lt x l' else x :: l
  end.

Definition sort_by {A K} (key : A → K) (lt : K → K → bool) (l : list A) : list A :=
  foldr (insert_by key lt) [] l.

(** [a] may stand before [b] in sorted order: [b] is not strictly smaller. *)
Definition may_precede {A K} (key : A → K) (lt : K → K → bool) (a b : A) : Prop :=
  lt (key b) (key a) = false.

(** A sort key is well formed when its price is a number. *)
Definition key_ok (k : float * Z) : Prop := is_nan k.1 = false.

Section WithLower.

(** [str.lower]: the Unicode lowering of the Python runtime. *)
Variable lower : pystr → pystr.

Definition _norm (s : option pystr) : pystr :=
  lower (strip (default [] s)).

Definition _simplify (s : pystr) : pystr :=
  let t := strip (remove_char STAR s) in
  if has_char LPAREN t && has_char RPAREN t
  then match rfind LPAREN t with
       | Some i => strip (take i t)
       | None => t
       end
  else t.

(** The body of the loop over [items]: what one record appends, if anything. *)
Definition candidate_of (target target_simple : pystr) (it : item) : option candidate :=
  let mh := _norm (item_name it) in
  match min_price it with
  | None => None
  | Some val =>
      if str_eqb mh target then
        Some (val, str_of "exact match: " ++ mh, 100%Z)
      else if nonempty target_simple && contains target_simple mh then
        Some (val, str_of "partial match: " ++ mh, _match_score target_simple mh)
      else None
  end.

Definition collect_candidates (items : list item) (market_hash_name : pystr) : list candidate :=
  let target := _norm (Some market_hash_name) in
  let target_simple := _norm (Some (_simplify market_hash_name)) in
  omap (candidate_of target target_simple) items.

Definition skinport_find_min_price_usd
    (items : list item) (market_hash_name : pystr) (debug : bool)
    : option float * option pystr :=
  match collect_candidates items market_hash_name with
  | [] => (None, Some (str_of "no candidates"))
  | c0 :: cs =>
      let '(best_val, best_reason, _) := hd c0 (sort_by sort_key key_lt (c0 :: cs)) in
      (Some best_val, if debug then Some best_reason else None)
  end.

(** The two tiers of the matcher, for a catalogue record taken alone: its
    normalized name is the normalized target, or it is not and holds the
    (non-empty) simplified target. *)
Definition exact_entry (market_hash_name : pystr) (it : item) : bool :=
  str_eqb (_norm (item_name it)) (_norm (Some market_hash_name)).

Definition partial_entry (market_hash_name : pystr) (it : item) : bool :=
  negb (exact_entry market_hash_name it)
  && nonempty (_norm (Some (_simplify market_hash_name)))
  && contains (_norm (Some (_simplify market_hash_name))) (_norm (item_name it)).

End WithLower.

(** The score of a partial match in the words of the specification: 50 for
    a candidate that starts with the simplified target, 30 for holding it,
    less half the difference of the two lengths. *)
Definition partial_score_formula (target_simple candidate : pystr) : Z :=
  ((if startswith target_simple candidate then 50 else 0) + 30
   - Z.abs (Z.of_nat (length candidate) - Z.of_nat (length target_simple)) `div` 2)%Z.

(** Every priced record carries a number that is not NaN. *)
Definition prices_are_numbers (items : list item) : bool :=
  forallb (λ it, match min_price it with
                 | Some v => negb (is_nan v)
                 | None => true
                 end) items.

(** The order the sort puts two candidates in: by price, and by falling
    score when the prices are equal. *)
Definition in_order (a b : candidate) : Prop :=
  PrimFloat.leb a.1.1 b.1.1 = true
  ∧ (PrimFloat.eqb a.1.1 b.1.1 = true → (b.2 ≤ a.2)%Z).

End Matcher.

Import Matcher.

(** ** Fee model (src/fees.py) *)

Module Fees.

(** What a call yields: a value, or the [KeyError] raised by indexing a
    dictionary at a key it does not hold. *)
Inductive result (A : Type) : Type :=
  | Ok (a : A)
  | KeyError (key : pystr).
Arguments Ok {A} a.
Arguments KeyError {A} key.

(** The loaded YAML document, read along the path the code follows:
    top-level key, then marketplace, then rate name. *)
Abbreviation fees_cfg := (gmap pystr (gmap pystr (gmap pystr float))).

Definition MARKET_FEES : pystr := str_of "market_fees".
Definition STEAM : pystr := str_of "steam".
Definition SKINPORT : pystr := str_of "skinport".
Definition SKINBARON : pystr := str_of "skinbaron".
Definition BUYER_EXTRA_RATE : pystr := str_of "buyer_extra_rate".
Definition SELLER_FEE_RATE : pystr := str_of "seller_fee_rate".

#[local] Set Warnings "-inexact-float".

Definition apply_buyer_total_usd
    (market : pystr) (listing_price_usd : float) (cfg : fees_cfg) : result float :=
  match cfg !! MARKET_FEES with
  | None => KeyError MARKET_FEES
  | Some fees =>
      let mf := default ∅ (fees !! market) in
      if str_eqb market STEAM then Ok listing_price_usd
      else if str_eqb market SKINPORT || str_eqb market SKINBARON then
        let extra := default 0%float (mf !! BUYER_EXTRA_RATE) in
        Ok (listing_price_usd * (1 + extra))%float
      else Ok listing_price_usd
  end.

Definition apply_seller_net_usd
    (market : pystr) (listing_price_usd : float) (cfg : fees_cfg) : result float :=
  match cfg !! MARKET_FEES with
  | None => KeyError MARKET_FEES
  | Some fees =>
      let mf := default ∅ (fees !! market) in
      if str_eqb market STEAM then
        let rate := default 0.15%float (mf !! SELLER_FEE_RATE) in
        Ok (listing_price_usd * (1 - rate))%float
      else if str_eqb market SKINPORT then
        let rate := default 0.12%float (mf !! SELLER_FEE_RATE) in
        Ok (listing_price_usd * (1 - rate))%float
      else if str_eqb market SKINBARON then
        let rate := default 0.10%float (mf !! SELLER_FEE_RATE) in
        Ok (listing_price_usd * (1 - rate))%float
      else Ok listing_price_usd
  end.

End Fees.

(** ** Price display normalizer (src/normalizer.py) *)

Module Normalizer.

Definition EXCEEDS_LIMIT : pystr := str_of "exceeds limit".

(** [Union[str, float, None]]: [None], or a string, or a number.  [float(x)]
    is the identity on a [float], so the [except] branch is not reached on
    the annotated argument types. *)
Definition enforce_scm_cap_display
    (price_usd : option float) (usd_cap : float) : option (pystr + float) :=
  match price_usd with
  | None => None
  | Some p =>
      if PrimFloat.ltb usd_cap p then Some (inl EXCEEDS_LIMIT) else Some (inr p)
  end.

End Normalizer.

(** ** Comparison orchestrator (app.py, "Run check") *)

Module Orchestrator.

(** One row of [rows_out].  [match_debug] is a key of the row only when the
    debug toggle is on, hence the outer [option]. *)
Record row := {
  r_base_name : pystr;
  r_wear : option pystr;
  r_stattrak : bool;
  r_market_hash_name : pystr;
  steam_usd : option float;
  skinport_min_usd : option float;
  spread_usd : option float;
  match_debug : option (option pystr)
}.

(** [spread = steam_price - sp_price] when both are numbers, else [None]. *)
Definition spread_of (steam_price sp_price : option float) : option float :=
  match steam_price, sp_price with
  | Some a, Some b => Some (a - b)%float
  | _, _ => None
  end.

Section WithWorld.

Variable lower : pystr → pystr.

(** The Steam price endpoint.  The answer to a request depends on the state
    of the outside world, which every request may change; a failed request
    answers [None]. *)
Variable World : Type.
Variable steam_get_price_usd : pystr → World → option float * World.

(** The body of the loop for one identifier. *)
Definition check_one (sp_items : list item) (show_debug : bool)
    (mh : pystr) (w : World) : row * World :=
  let '(sp_price, reason) := skinport_find_min_price_usd lower sp_items mh true in
  let '(steam_price, w) := steam_get_price_usd mh w in
  let spread := spread_of steam_price sp_price in
  let parsed := parse_market_hash_name mh in
  ({| r_base_name := base_name parsed;
      r_wear := wear parsed;
      r_stattrak := is_stattrak parsed;
      r_market_hash_name := mh;
      steam_usd := steam_price;
      skinport_min_usd := sp_price;
      spread_usd := spread;
      match_debug := if show_debug then Some reason else None |}, w).

(** [for i, mh in enumerate(watch, start=1): ... rows_out.append(row)].  The
    progress bar and the pause between requests leave the rows alone. *)
Fixpoint run_check_loop (sp_items : list item) (show_debug : bool)
    (watch : list pystr) (rows_out : list row) (w : World) : list row * World :=
  match watch with
  | [] => (rows_out, w)
  | mh :: watch' =>
      let '(row, w) := check_one sp_items show_debug mh w in
      run_check_loop sp_items show_debug watch' (rows_out ++ [row]) w
  end.

(** What the Steam endpoint answers to the requests of one run, in turn. *)
Fixpoint steam_answers (watch : list pystr) (w : World) : list (option float) :=
  match watch with
  | [] => []
  | mh :: watch' =>
      let '(answer, w) := steam_get_price_usd mh w in
      answer :: steam_answers watch' w
  end.

(** [watch = st.session_state.watchlist[: int(max_items)]], then the loop. *)
Definition run_check (sp_items : list item) (show_debug : bool)
    (watchlist : list pystr) (max_items : nat) (w : World) : list row * World :=
  run_check_loop sp_items show_debug (take max_items watchlist) [] w.

End WithWorld.

End Orchestrator.

(** ** Watchlist helpers (app.py) *)

Module Watchlist.

(** [st.session_state], as far as the watchlist goes: the attribute may be
    missing before [ensure_watchlist] has run. *)
Record session_state := { watchlist : option (list pystr) }.

Definition initial_state : session_state := {| watchlist := None |}.

Definition ensure_watchlist (st : session_state) : session_state :=
  match watchlist st with
  | None => {| watchlist := Some [] |}
  | Some _ => st
  end.

(** [st.session_state.watchlist], read after [ensure_watchlist]. *)
Definition get_watchlist (st : session_state) : list pystr :=
  default [] (watchlist st).

(** [mh in watchlist]. *)
Definition str_in (mh : pystr) (l : list pystr) : bool := bool_decide (mh ∈ l).

Definition add_to_watchlist (mh : pystr) (st : session_state) : session_state :=
  let st := ensure_watchlist st in
  if nonempty mh && negb (str_in mh (get_watchlist st))
  then {| watchlist := Some (get_watchlist st ++ [mh]) |}
  else st.

Definition remove_from_watchlist (mh : pystr) (st : session_state) : session_state :=
  let st := ensure_watchlist st in
  {| watchlist := Some (List.filter (λ x, negb (str_eqb x mh)) (get_watchlist st)) |}.

(** "Add pasted names": [lines] are the non-blank lines, stripped. *)
Definition pasted_lines (raw_lines : list pystr) : list pystr :=
  List.filter nonempty (strip <$> raw_lines).

Fixpoint add_pasted_names (lines : list pystr) (added : nat) (st : session_state)
    : session_state * nat :=
  match lines with
  | [] => (st, added)
  | mh :: lines' =>
      if negb (str_in mh (get_watchlist st))
      then add_pasted_names lines' (S added) (add_to_watchlist mh st)
      else add_pasted_names lines' added st
  end.

(** What the user can do to the watchlist in one run of the script. *)
Inductive event :=
  | ClickAdd (mh : pystr)
  | ClickRemove (mh : pystr)
  | PasteNames (raw_lines : list pystr).

(** One run: [ensure_watchlist()] at the top of the script, then the handler
    of the widget that fired.  The gallery offers "Add" only for a name that
    is not on the list yet. *)
Definition script_run (st : session_state) (ev : event) : session_state :=
  let st := ensure_watchlist st in
  match ev with
  | ClickAdd mh =>
      if str_in mh (get_watchlist st) then st else add_to_watchlist mh st
  | ClickRemove mh => remove_from_watchlist mh st
  | PasteNames raw_lines => (add_pasted_names (pasted_lines raw_lines) 0 st).1
  end.

Definition session (events : list event) : session_state :=
  foldl script_run initial_state events.

End Watchlist.

(** ** Sample data for the examples *)

Module Samples.

(** The catalogue of the examples: one skin in three wear tiers. *)
Definition redline_catalog : list item :=
  [ {| item_name := Some (str_of "AK-47 | Redline (Field-Tested)");
       min_price := Some 10%float |};
    {| item_name := Some (str_of "AK-47 | Redline (Well-Worn)");
       min_price := Some 5%float |};
    {| item_name := Some (str_of "AK-47 | Redline (Battle-Scarred)");
       min_price := Some 3%float |} ].

Definition redline_ft : pystr := str_of "AK-47 | Redline (Field-Tested)".

End Samples.

(** ** Markup removal (app.py) *)

Module Html.

Definition LT : N := 60.
Definition GT : N := 62.

(** [re.sub(r"<[^>]*>", "", s)], read from left to right.  A ["<"] opens a
    match when a [">"] follows somewhere; the match then runs up to the first
    [">"].  [in_tag] says that the scan is inside a match. *)
Fixpoint remove_tags (in_tag : bool) (s : pystr) : pystr :=
  match s with
  | [] => []
  | c :: rest =>
      if in_tag then
        remove_tags (negb (c =? GT)%N) rest
      else if (c =? LT)%N && has_char GT rest then remove_tags true rest
      else c :: remove_tags false rest
  end.

Definition _strip_html (s : option pystr) : pystr :=
  strip (remove_tags false (default [] s)).

(** No ["<"] of the string has a [">"] after it. *)
Fixpoint tag_free (s : pystr) : bool :=
  match s with
  | [] => true
  | c :: rest => negb ((c =? LT)%N && has_char GT rest) && tag_free rest
  end.

End Html.

(** ** The gallery grid (app.py, "Add items") *)

Module Grid.

(** The inner loop over the columns of one row: a card per column until the
    groups run out ([break]).  [shown] collects the cards with the row and
    column they are drawn in. *)
Fixpoint fill_row {A} (groups : list A) (row : nat) (row_cols : list nat)
    (idx : nat) (shown : list (nat * nat * A)) : nat * list (nat * nat * A) :=
  match row_cols with
  | [] => (idx, shown)
  | c :: row_cols' =>
      match groups !! idx with
      | None => (idx, shown)
      | Some g => fill_row groups row row_cols' (S idx) (shown ++ [(row, c, g)])
      end
  end.

(** The outer loop [for _ in range(rows)]. *)
Fixpoint fill_rows {A} (groups : list A) (grid_cols : nat) (rows : list nat)
    (idx : nat) (shown : list (nat * nat * A)) : nat * list (nat * nat * A) :=
  match rows with
  | [] => (idx, shown)
  | row :: rows' =>
      let '(idx, shown) := fill_row groups row (seq 0 grid_cols) idx shown in
      fill_rows groups grid_cols rows' idx shown
  end.

(** The cards of the gallery.  Without groups a warning is shown and nothing
    is drawn; [None] stands for the [ZeroDivisionError] of
    [// int(grid_cols)] on a grid without columns. *)
Definition gallery {A} (groups : list A) (grid_cols : nat) : option (list (nat * nat * A)) :=
  match groups with
  | [] => Some []
  | _ :: _ =>
      if (grid_cols =? 0)%nat then None
      else
        let rows := (length groups + grid_cols - 1) `div` grid_cols in
        Some (fill_rows groups grid_cols (seq 0 rows) 0 []).2
  end.

(** The place of the [k]-th card on a grid filled row by row, from left to
    right. *)
Definition place {A} (grid_cols : nat) (k : nat) (g : A) : nat * nat * A :=
  (k `div` grid_cols, k `mod` grid_cols, g).

(** The cards drawn so far are the first [idx] groups, each at its place. *)
Definition drawn {A} (groups : list A) (grid_cols : nat)
    (idx : nat) (shown : list (nat * nat * A)) : Prop :=
  idx ≤ length groups ∧ shown = imap (place grid_cols) (take idx groups).

End Grid.

(** ** Grouping of search results (app.py) *)

Module Gallery.

(** One search result, through the keys [group_by_base] reads with [r.get]:
    a key may be missing or hold [None].  [sr_is_stattrak] is the truth value
    of [r.get("is_stattrak")]. *)
Record search_result := {
  sr_base_name : option pystr;
  sr_market_hash_name : option pystr;
  sr_wear : option pystr;
  sr_is_stattrak : bool;
  sr_icon_url : option pystr
}.

(** The truth value of an optional string: [None] and [""] are false. *)
Definition truthy (s : option pystr) : bool :=
  match s with
  | Some (_ :: _) => true
  | _ => false
  end.

(** [a or b]. *)
Definition py_or (a b : option pystr) : option pystr := if truthy a then a else b.

(** [base = r.get("base_name") or r.get("market_hash_name")], as the key of
    the group the result goes to; [None] when the result is skipped. *)
Definition group_key (r : search_result) : option pystr :=
  let base := py_or (sr_base_name r) (sr_market_hash_name r) in
  if truthy base then base else None.

(** A group while the results are read; [seen_wears] is a set. *)
Record group_acc := {
  a_base_name : pystr;
  a_icon_url : option pystr;
  a_seen_wears : gset pystr;
  a_seen_stattrak : bool;
  a_seen_nonstattrak : bool;
  a_samples : list search_result
}.

(** The dictionary [groups]: keys in the order they were inserted. *)
Fixpoint groups_get {V} (k : pystr) (groups : list (pystr * V)) : option V :=
  match groups with
  | [] => None
  | (k', v) :: groups' => if str_eqb k' k then Some v else groups_get k groups'
  end.

(** The effect of mutating the dictionary's value at [k] in place. *)
Fixpoint groups_update {V} (k : pystr) (f : V → V) (groups : list (pystr * V))
    : list (pystr * V) :=
  match groups with
  | [] => []
  | (k', v) :: groups' =>
      if str_eqb k' k then (k', f v) :: groups'
      else (k', v) :: groups_update k f groups'
  end.

(** The group made for the first result of a base name. *)
Definition new_group (base : pystr) (r : search_result) : group_acc :=
  {| a_base_name := base; a_icon_url := sr_icon_url r; a_seen_wears := ∅;
     a_seen_stattrak := false; a_seen_nonstattrak := false; a_samples := [] |}.

(** What a result adds to its group. *)
Definition absorb (r : search_result) (g : group_acc) : group_acc :=
  {| a_base_name := a_base_name g;
     a_icon_url :=
       if negb (truthy (a_icon_url g)) && truthy (sr_icon_url r)
       then sr_icon_url r else a_icon_url g;
     a_seen_wears :=
       match sr_wear r with
       | Some (c :: w) => {[ c :: w ]} ∪ a_seen_wears g
       | _ => a_seen_wears g
       end;
     a_seen_stattrak := if sr_is_stattrak r then true else a_seen_stattrak g;
     a_seen_nonstattrak := if sr_is_stattrak r then a_seen_nonstattrak g else true;
     a_samples :=
       if (length (a_samples g) <? 3)%nat then a_samples g ++ [r] else a_samples g |}.

(** The body of the loop over [results]. *)
Definition group_step (groups : list (pystr * group_acc)) (r : search_result)
    : list (pystr * group_acc) :=
  match group_key r with
  | None => groups
  | Some base =>
      let groups :=
        match groups_get base groups with
        | Some _ => groups
        | None => groups ++ [(base, new_group base r)]
        end in
      groups_update base (absorb r) groups
  end.

(** A group as returned: [seen_wears] is now a list. *)
Record group := {
  g_base_name : pystr;
  g_icon_url : option pystr;
  seen_wears : list pystr;
  seen_stattrak : bool;
  seen_nonstattrak : bool;
  samples : list search_result
}.

(** [WEARS.index(x) if x in WEARS else 999]. *)
Fixpoint index_of (x : pystr) (l : list pystr) (i : nat) : option nat :=
  match l with
  | [] => None
  | y :: l' => if str_eqb y x then Some i else index_of x l' (S i)
  end.

Definition wear_rank (x : pystr) : nat := default 999 (index_of x WEARS 0).

(** [a < b] on strings: code point by code point, a proper prefix first. *)
Fixpoint str_lt (a b : pystr) : bool :=
  match a, b with
  | _, [] => false
  | [], _ :: _ => true
  | x :: a', y :: b' =>
      if (x <? y)%N then true
      else if (x =? y)%N then str_lt a' b' else false
  end.

Section WithRuntime.

(** [str.lower], and the order in which a set hands out its elements, which
    Python leaves open. *)
Variable lower : pystr → pystr.
Variable set_iter : gset pystr → list pystr.

(** [g["seen_wears"] = sorted(list(g["seen_wears"]), key=...)]. *)
Definition finish_group (g : group_acc) : group :=
  {| g_base_name := a_base_name g;
     g_icon_url := a_icon_url g;
     seen_wears := sort_by wear_rank Nat.ltb (set_iter (a_seen_wears g));
     seen_stattrak := a_seen_stattrak g;
     seen_nonstattrak := a_seen_nonstattrak g;
     samples := a_samples g |}.

Definition group_by_base (results : list search_result) : list group :=
  let groups := foldl group_step [] results in
  let out := (λ kv, finish_group kv.2) <$> groups in
  sort_by (λ g, lower (g_base_name g)) str_lt out.

End WithRuntime.

(** The results that go to the group of [base]. *)
Definition members (base : pystr) (results : list search_result) : list search_result :=
  List.filter (λ r, bool_decide (group_key r = Some base)) results.

(** The first icon of a group that is not empty, else the icon entry of its
    first result. *)
Definition first_icon (ms : list search_result) : option pystr :=
  match List.find (λ r, truthy (sr_icon_url r)) ms with
  | Some r => sr_icon_url r
  | None => head ms ≫= sr_icon_url
  end.

(** The group of [base] once the results [ms] of that base have been read. *)
Definition summary (base : pystr) (ms : list search_result) : option group_acc :=
  match ms with
  | [] => None
  | r0 :: _ => Some (foldl (λ g r, absorb r g) (new_group base r0) ms)
  end.

End Gallery.

(** ** Steam price text (src/market_clients.py) *)

Module PriceText.

Definition COMMA : N := 44.
Definition DOT : N := 46.

(** [s.replace(a, b)] for one-character [a] and [b]. *)
Definition replace_char (a b : N) (s : pystr) : pystr :=
  (λ c, if (c =? a)%N then b else c) <$> s.

Section WithRuntime.

(** [ch.isdigit()] on one character, and [float(s)] on a string, [None]
    standing for the [ValueError] it raises on a malformed one. *)
Variable isdigit : N → bool.
Variable py_float : pystr → option float.

Definition _parse_price_text (txt : option pystr) : option float :=
  let s := replace_char COMMA DOT (strip (default [] txt)) in
  let filtered := List.filter (λ ch, isdigit ch || (ch =? DOT)%N) s in
  if nonempty filtered then py_float filtered else None.

End WithRuntime.

(** The characters of a price text that bear on the outcome. *)
Definition significant (isdigit : N → bool) (s : pystr) : pystr :=
  List.filter (λ ch, isdigit ch || (ch =? DOT)%N || (ch =? COMMA)%N) s.

(** [isdigit] on the ASCII digits, for the examples. *)
Definition ascii_isdigit (c : N) : bool := ((48 <=? c) && (c <=? 57))%N.

End PriceText.

(** ** Steam search results and the cards made of them (app.py) *)

Module Search.

Import Html Gallery.

(** One entry of the search response, through the keys that are read.
    [api_icon_url] is [it.get("asset_description", {}).get("icon_url")], the
    description being an object where the entry has one. *)
Record api_item := {
  api_hash_name : option pystr;
  api_market_hash_name : option pystr;
  api_name : option pystr;
  api_sell_price_text : option pystr;
  api_sell_listings : option Z;
  api_icon_url : option pystr
}.

(** One dictionary of the list [steam_search_items] returns. *)
Record found_item := {
  f_market_hash_name : pystr;
  f_base_name : pystr;
  f_wear : option pystr;
  f_is_stattrak : bool;
  f_is_souvenir : bool;
  f_name : pystr;
  f_sell_price_text : pystr;
  f_sell_listings : option Z;
  f_icon_url : option pystr
}.

(** The body of the loop over [results]; [None] is [continue]. *)
Definition found_of (it : api_item) : option found_item :=
  match py_or (py_or (api_hash_name it) (api_market_hash_name it)) (api_name it) with
  | Some (c :: m) =>
      let mh := c :: m in
      let parsed := parse_market_hash_name mh in
      Some {| f_market_hash_name := mh;
              f_base_name := base_name parsed;
              f_wear := wear parsed;
              f_is_stattrak := is_stattrak parsed;
              f_is_souvenir := is_souvenir parsed;
              f_name := (let n := _strip_html (api_name it) in
                         if nonempty n then n else mh);
              f_sell_price_text := _strip_html (api_sell_price_text it);
              f_sell_listings := api_sell_listings it;
              f_icon_url := api_icon_url it |}
  | _ => None
  end.

Section WithSteam.

(** The search request for a query and a count: the [results] of the
    response ([payload.get("results", []) or []]), [None] when the request
    or its decoding raises. *)
Variable steam_search : pystr → Z → option (list api_item).

Definition steam_search_items (query : option pystr) (count : Z)
    : option (list found_item) :=
  let q := strip (default [] query) in
  if negb (nonempty q) then Some []
  else match steam_search q count with
       | None => None
       | Some results => Some (omap found_of results)
       end.

End WithSteam.

(** A found item as [group_by_base] reads it. *)
Definition as_result (f : found_item) : search_result :=
  {| sr_base_name := Some (f_base_name f);
     sr_market_hash_name := Some (f_market_hash_name f);
     sr_wear := f_wear f;
     sr_is_stattrak := f_is_stattrak f;
     sr_icon_url := f_icon_url f |}.

(** The wear a card preselects (app.py, gallery):
    [default_wear = "Field-Tested"], replaced by [g["seen_wears"][0]] where
    the group has seen a wear, and
    [index = WEARS.index(default_wear) if default_wear in WEARS else 2]. *)
Definition default_wear (g : group) : pystr :=
  match seen_wears g with
  | w :: _ => w
  | [] => str_of "Field-Tested"
  end.

Definition default_wear_index (g : group) : nat :=
  default 2 (index_of (default_wear g) WEARS 0).

End Search.

(** ** Widget keys of the cards (app.py, gallery) *)

Module CardKeys.

Definition UNDERSCORE : N := 95.

(** The class [[a-zA-Z0-9_]]. *)
Definition is_word (c : N) : bool :=
  ((97 <=? c) && (c <=? 122) || (65 <=? c) && (c <=? 90)
   || (48 <=? c) && (c <=? 57) || (c =? UNDERSCORE))%N.

(** [re.sub(r"[^a-zA-Z0-9_]+", "_", s)], read from left to right: every
    maximal run of characters outside the class becomes one ["_"].
    [in_run] says that the scan is inside such a run. *)
Fixpoint sub_runs (in_run : bool) (s : pystr) : pystr :=
  match s with
  | [] => []
  | c :: rest =>
      if is_word c then c :: sub_runs false rest
      else if in_run then sub_runs true rest
      else UNDERSCORE :: sub_runs true rest
  end.

(** [key_prefix = re.sub(r"[^a-zA-Z0-9_]+", "_", base)[:60]]. *)
Definition key_prefix (base : pystr) : pystr := take 60 (sub_runs false base).

End CardKeys.

(** ** The debug column of a run (app.py, "Run check") *)

Module DebugColumn.

Import Orchestrator.

(** The row without its debug column. *)
Definition drop_debug (r : row) : row :=
  {| r_base_name := r_base_name r; r_wear := r_wear r; r_stattrak := r_stattrak r;
     r_market_hash_name := r_market_hash_name r; steam_usd := steam_usd r;
     skinport_min_usd := skinport_min_usd r; spread_usd := spread_usd r;
     match_debug := None |}.

End DebugColumn.

(** ** Sample search for the examples *)

Module SearchSamples.

Import Gallery Search.

Definition api_entry (name : string) (icon : option pystr) : api_item :=
  {| api_hash_name := Some (str_of name);
     api_market_hash_name := None;
     api_name := Some (str_of name);
     api_sell_price_text := Some (str_of "$12.50");
     api_sell_listings := Some 120%Z;
     api_icon_url := icon |}.

(** Four offers of one skin and one of another; the first has no icon. *)
Definition redline_search : list api_item :=
  [ api_entry "AK-47 | Redline (Well-Worn)" None;
    api_entry "AWP | Asiimov (Battle-Scarred)" (Some (str_of "icon-awp"));
    {| api_hash_name := Some (STATTRAK_PREFIX ++ str_of "AK-47 | Redline (Minimal Wear)");
       api_market_hash_name := None; api_name := None;
       api_sell_price_text := None; api_sell_listings := None;
       api_icon_url := Some (str_of "icon-ak") |};
    api_entry "AK-47 | Redline (Well-Worn)" (Some (str_of "icon-ak2"));
    api_entry "AK-47 | Redline (Field-Tested)" None ].

Definition redline_found : list found_item := omap found_of redline_search.

Definition redline_results : list search_result := as_result <$> redline_found.

(** The group of the first skin. *)
Definition redline_group : group :=
  {| g_base_name := str_of "AK-47 | Redline";
     g_icon_url := Some (str_of "icon-ak");
     seen_wears := [str_of "Minimal Wear"; str_of "Field-Tested"; str_of "Well-Worn"];
     seen_stattrak := true;
     seen_nonstattrak := true;
     samples := take 3 (members (str_of "AK-47 | Redline") redline_results) |}.

(** A stand-in for [float] that reads the one price text of the examples. *)
Definition sample_float (s : pystr) : option float :=
  if str_eqb s (str_of "12.50") then Some 12.5%float else None.

End SearchSamples.

(** * Properties *)

(** ** Order facts on binary64 values

    The comparisons of [PrimFloat] are specified by [SFcompare] on the
    decoded value; the facts below are read off that specification. *)

Module PyFloat.

Import Binary64.

Lemma SFcompare_opp x y :
  SFcompare y x = CompOpp <$> SFcompare x y.
Proof.
  destruct x as [[]|[]| |[] mx ex], y as [[]|[]| |[] my ey]; simpl; try reflexivity;
    change (Pos.compare_cont Eq) with Pos.compare;
    rewrite (Z.compare_antisym ex ey), (Pos.compare_antisym mx my);
    destruct (ex ?= ey)%Z, (mx ?= my)%positive; reflexivity.
Qed.

Lemma SFcompare_some x y :
  sf_is_nan x = false → sf_is_nan y = false → is_Some (SFcompare x y).
Proof.
  destruct x as [[]|[]| |[] mx ex], y as [[]|[]| |[] my ey]; simpl;
    intros; try discriminate; eauto.
Qed.

Lemma SFcompare_refl x : sf_is_nan x = false → SFcompare x x = Some Eq.
Proof.
  destruct x as [[]|[]| |[] mx ex]; simpl; intros; try discriminate; try reflexivity;
    change (Pos.compare_cont Eq) with Pos.compare;
    rewrite Z.compare_refl, Pos.compare_refl; reflexivity.
Qed.

Lemma SFcompare_nan x y :
  sf_is_nan x = true ∨ sf_is_nan y = true → SFcompare x y = None.
Proof.
  destruct x as [[]|[]| |[] mx ex], y as [[]|[]| |[] my ey]; simpl;
    intros [?|?]; try discriminate; reflexivity.
Qed.

Lemma SFleb_trans x y z :
  SFleb x y = true → SFleb y z = true → SFleb x z = true.
Proof.
  unfold SFleb.
  destruct x as [[]|[]| |[] mx ex], y as [[]|[]| |[] my ey], z as [[]|[]| |[] mz ez];
    simpl; try (intros; congruence); try reflexivity.
  all: destruct (Z.compare_spec ex ey), (Z.compare_spec ey ez), (Z.compare_spec ex ez);
    try lia; subst; try (intros; congruence); try reflexivity.
  all: change (Pos.compare_cont Eq) with Pos.compare;
    destruct (Pos.compare_spec mx my), (Pos.compare_spec my mz), (Pos.compare_spec mx mz);
    try lia; subst; simpl; try (intros; congruence); try reflexivity.
Qed.

Lemma is_nan_spec x : is_nan x = sf_is_nan (Prim2SF x).
Proof.
  unfold is_nan. rewrite FloatAxioms.eqb_spec. unfold SFeqb.
  destruct (sf_is_nan (Prim2SF x)) eqn:E.
  - rewrite SFcompare_nan by auto. reflexivity.
  - rewrite SFcompare_refl by assumption. reflexivity.
Qed.

(** [x <= y] fails as soon as one side is NaN. *)
Lemma leb_not_nan x y :
  PrimFloat.leb x y = true → is_nan x = false ∧ is_nan y = false.
Proof.
  rewrite FloatAxioms.leb_spec, !is_nan_spec. unfold SFleb. intros H.
  destruct (sf_is_nan (Prim2SF x)) eqn:Ex, (sf_is_nan (Prim2SF y)) eqn:Ey; auto;
    rewrite SFcompare_nan in H by auto; discriminate.
Qed.

Lemma leb_refl x : is_nan x = false → PrimFloat.leb x x = true.
Proof.
  rewrite FloatAxioms.leb_spec, is_nan_spec. unfold SFleb. intros H.
  rewrite SFcompare_refl by assumption. reflexivity.
Qed.

Lemma leb_trans x y z :
  PrimFloat.leb x y = true → PrimFloat.leb y z = true → PrimFloat.leb x z = true.
Proof. rewrite !FloatAxioms.leb_spec. apply SFleb_trans. Qed.

Lemma leb_total x y :
  is_nan x = false → is_nan y = false →
  PrimFloat.leb x y = true ∨ PrimFloat.leb y x = true.
Proof.
  rewrite !FloatAxioms.leb_spec, !is_nan_spec. unfold SFleb. intros Hx Hy.
  rewrite (SFcompare_opp (Prim2SF x) (Prim2SF y)).
  destruct (SFcompare_some _ _ Hx Hy) as [c ->]. destruct c; simpl; auto.
Qed.

(** [x < y] is [x <= y] without [y <= x]; [x == y] is both. *)
Lemma ltb_leb x y :
  PrimFloat.ltb x y = (PrimFloat.leb x y && negb (PrimFloat.leb y x)).
Proof.
  rewrite FloatAxioms.ltb_spec, !FloatAxioms.leb_spec. unfold SFltb, SFleb.
  rewrite (SFcompare_opp (Prim2SF x) (Prim2SF y)).
  destruct (SFcompare (Prim2SF x) (Prim2SF y)) as [[]|]; reflexivity.
Qed.

Lemma eqb_leb x y :
  PrimFloat.eqb x y = (PrimFloat.leb x y && PrimFloat.leb y x).
Proof.
  rewrite FloatAxioms.eqb_spec, !FloatAxioms.leb_spec. unfold SFeqb, SFleb.
  rewrite (SFcompare_opp (Prim2SF x) (Prim2SF y)).
  destruct (SFcompare (Prim2SF x) (Prim2SF y)) as [[]|]; reflexivity.
Qed.

End PyFloat.

(** ** Facts about the string helpers *)

Module PyStrFacts.

Lemma lstrip_length s : length (lstrip s) ≤ length s.
Proof. induction s as [|c s IH]; simpl; [lia|]. destruct (is_space c); simpl; lia. Qed.

Lemma rstrip_length s : length (rstrip s) ≤ length s.
Proof.
  unfold rstrip. rewrite length_reverse.
  etrans; [apply lstrip_length|]. by rewrite length_reverse.
Qed.

Lemma strip_length s : length (strip s) ≤ length s.
Proof. unfold strip. etrans; [apply rstrip_length|apply lstrip_length]. Qed.

Lemma lstrip_cons_nonspace c s : is_space c = false → lstrip (c :: s) = c :: s.
Proof. simpl. by intros ->. Qed.

Lemma rstrip_snoc_nonspace s c : is_space c = false → rstrip (s ++ [c]) = s ++ [c].
Proof.
  intros Hc. unfold rstrip. rewrite reverse_snoc, lstrip_cons_nonspace by done.
  by rewrite reverse_cons, reverse_involutive.
Qed.

(** A string that [strip] leaves alone does not begin with whitespace. *)
Lemma strip_fixed_head c s : strip (c :: s) = c :: s → is_space c = false.
Proof.
  intros H. destruct (is_space c) eqn:E; [|done].
  assert (length (strip (c :: s)) ≤ length s) as Hlen.
  { unfold strip. simpl. rewrite E. etrans; [apply rstrip_length|apply lstrip_length]. }
  rewrite H in Hlen. simpl in Hlen. lia.
Qed.

(** Text between two non-blank characters is untouched by [strip]. *)
Lemma strip_between c s z :
  is_space c = false → is_space z = false → strip (c :: s ++ [z]) = c :: s ++ [z].
Proof.
  intros Hc Hz. unfold strip. rewrite lstrip_cons_nonspace by done.
  by rewrite app_comm_cons, rstrip_snoc_nonspace.
Qed.

Lemma startswith_app p s : startswith p (p ++ s) = true.
Proof. induction p as [|a p IH]; simpl; [done|]. by rewrite N.eqb_refl. Qed.

Lemma startswith_true p s : startswith p s = true ↔ ∃ t, s = p ++ t.
Proof.
  revert s. induction p as [|a p IH]; intros s; simpl.
  - split; eauto.
  - destruct s as [|b s].
    + split; [done|]. by intros [t ?].
    + rewrite andb_true_iff, N.eqb_eq, IH. split.
      * intros [-> [t ->]]. eauto.
      * intros [t [= -> ->]]. eauto.
Qed.

Lemma contains_length p s : contains p s = true → length p ≤ length s.
Proof.
  induction s as [|c s IH]; simpl.
  - rewrite orb_false_r. intros [t Ht]%startswith_true.
    destruct p; [simpl; lia|done].
  - intros [[t Ht]%startswith_true|H]%orb_true_iff.
    + apply (f_equal length) in Ht. rewrite length_app in Ht. simpl in Ht. lia.
    + specialize (IH H). lia.
Qed.

(** A prefix test against a pattern without an opening parenthesis cannot
    tell a string cut before [" ("] from the same string followed by a space. *)
Lemma startswith_before_paren p b t :
  40%N ∉ p →
  startswith p (b ++ [32; 40]%N ++ t) = true → startswith p (b ++ [32%N]) = true.
Proof.
  revert b. induction p as [|a p IH]; intros b Hp; [done|].
  destruct b as [|c b]; simpl.
  - destruct p as [|a' p]; [by rewrite !andb_true_r|].
    simpl. intros [_ [Ha' _]%andb_true_iff]%andb_true_iff.
    apply N.eqb_eq in Ha'. subst a'. exfalso. apply Hp.
    apply elem_of_cons. right. apply elem_of_cons. by left.
  - intros [-> H]%andb_true_iff. simpl. apply IH; [|done].
    intros ?. apply Hp. apply elem_of_cons. by right.
Qed.

End PyStrFacts.

(** ** Identifier parser *)

Module ParserFacts.

Import PyStrFacts.

Lemma wears_cases (P : pystr → Prop) :
  P (str_of "Factory New") → P (str_of "Minimal Wear") → P (str_of "Field-Tested") →
  P (str_of "Well-Worn") → P (str_of "Battle-Scarred") →
  ∀ w, w ∈ WEARS → P w.
Proof.
  intros H1 H2 H3 H4 H5 w Hw. unfold WEARS in Hw.
  repeat (apply elem_of_cons in Hw as [->|Hw]; [assumption|]).
  by apply elem_of_nil in Hw.
Qed.

Lemma strip_wear w : w ∈ WEARS → strip w = w.
Proof. revert w. apply wears_cases; by vm_compute. Qed.

(** After the blank, the literal ["(tier)"] matches and reports its tier. *)
Lemma match_wear_tail_literal w :
  w ∈ WEARS → match_wear_tail (LPAREN :: w ++ [RPAREN]) = Some w.
Proof. revert w. apply wears_cases; by vm_compute. Qed.

(** The tail of the pattern only matches at an opening parenthesis. *)
Lemma match_wear_tail_head s w :
  match_wear_tail s = Some w → head s = Some LPAREN.
Proof.
  unfold match_wear_tail. generalize WEARS as tiers.
  induction tiers as [|t tiers IH]; intros H; [done|].
  cbn [match_wear_tail_in] in H.
  destruct (startswith (LPAREN :: t ++ [RPAREN]) s) eqn:E.
  - apply startswith_true in E as [u ->]. done.
  - rewrite andb_false_l in H. by apply IH.
Qed.

(** In [base ++ " (tier)"] with no parenthesis in [base], the search stops at
    the blank that precedes the parenthesis. *)
Lemma re_search_wear_built b w i :
  LPAREN ∉ b → w ∈ WEARS →
  re_search_wear (b ++ [32%N; LPAREN] ++ w ++ [RPAREN]) i = Some (i + length b, w).
Proof.
  intros Hb Hw. revert i. induction b as [|c b IH]; intros i.
  - simpl. change (is_space 32) with true. cbv iota.
    rewrite (match_wear_tail_literal w Hw). do 2 f_equal. lia.
  - apply not_elem_of_cons in Hb as [Hc Hb'].
    assert (match_wear_tail (b ++ [32%N; LPAREN] ++ w ++ [RPAREN]) = None) as Hnone.
    { destruct (match_wear_tail _) as [w'|] eqn:E; [|done].
      apply match_wear_tail_head in E. destruct b as [|c' b]; simpl in E.
      - by vm_compute in E.
      - injection E as ->. apply not_elem_of_cons in Hb' as [? _]. done. }
    rewrite <- app_comm_cons. cbn [re_search_wear].
    rewrite Hnone, (IH Hb' (S i)).
    destruct (is_space c); cbn [length]; do 2 f_equal; lia.
Qed.

End ParserFacts.

Module ParserTheorems.

Import PyStrFacts ParserFacts.

(** Closes goals [P] that a decision procedure settles by evaluation. *)
Ltac by_decide := apply (bool_decide_unpack _); vm_compute; exact I.

Lemma strip_app_ends c s t z :
  is_space c = false → is_space z = false →
  strip ((c :: s) ++ t ++ [z]) = (c :: s) ++ t ++ [z].
Proof.
  intros Hc Hz. rewrite <- app_comm_cons, app_assoc. by apply strip_between.
Qed.

Lemma souvenir_not_stattrak s :
  startswith SOUVENIR_PREFIX (STATTRAK_PREFIX ++ s) = false.
Proof. reflexivity. Qed.

(** No string begins with both edition prefixes: they part at the second
    character. *)
Lemma prefixes_exclusive s :
  startswith STATTRAK_PREFIX s && startswith SOUVENIR_PREFIX s = false.
Proof.
  destruct (startswith STATTRAK_PREFIX s) eqn:E; [|done].
  apply startswith_true in E as [t ->]. by rewrite souvenir_not_stattrak.
Qed.

(** C1 (as amended).  Parsing what [build_market_hash_name] composed gives
    back the base name, the wear tier and the StatTrak flag, for every base
    name without parentheses and without surrounding whitespace, each of the
    five tiers and either flag, provided that, when the flag is off, the base
    name is not empty and, followed by a blank, does not begin with
    ["StatTrak™ "] or ["Souvenir "]. *)
Theorem parse_build_round_trip (base w : pystr) (flag : bool) :
  LPAREN ∉ base → RPAREN ∉ base → w ∈ WEARS → strip base = base →
  (flag = false →
     base ≠ []
     ∧ startswith STATTRAK_PREFIX (base ++ [32%N]) = false
     ∧ startswith SOUVENIR_PREFIX (base ++ [32%N]) = false) →
  let p := parse_market_hash_name (build_market_hash_name base w flag) in
  base_name p = base ∧ wear p = Some w ∧ is_stattrak p = flag.
Proof.
  intros Hl _ Hw Hs Hf. unfold build_market_hash_name.
  rewrite Hs, (strip_wear w Hw).
  pose proof (re_search_wear_built base w 0 Hl Hw) as Hre.
  destruct flag.
  - assert (strip (STATTRAK_PREFIX ++ base ++ [32%N; LPAREN] ++ w ++ [RPAREN])
            = STATTRAK_PREFIX ++ base ++ [32%N; LPAREN] ++ w ++ [RPAREN]) as Hst.
    { change STATTRAK_PREFIX with (83%N :: tail STATTRAK_PREFIX).
      replace (base ++ [32%N; LPAREN] ++ w ++ [RPAREN])
        with ((base ++ [32%N; LPAREN] ++ w) ++ [RPAREN])
        by (by rewrite <- !app_assoc).
      by apply strip_app_ends. }
    unfold parse_market_hash_name. cbv zeta. rewrite Hst.
    rewrite startswith_app, souvenir_not_stattrak, drop_app_length, Hre.
    cbn [base_name wear is_stattrak]. by rewrite Nat.add_0_l, take_app_length.
  - destruct (Hf eq_refl) as (Hne & Hnst & Hnsv).
    destruct base as [|c b]; [done|].
    assert (strip ((c :: b) ++ [32%N; LPAREN] ++ w ++ [RPAREN])
            = (c :: b) ++ [32%N; LPAREN] ++ w ++ [RPAREN]) as Hst.
    { replace ([32%N; LPAREN] ++ w ++ [RPAREN])
        with (([32%N; LPAREN] ++ w) ++ [RPAREN]) by (by rewrite <- !app_assoc).
      apply strip_app_ends; [by eapply strip_fixed_head|done]. }
    unfold parse_market_hash_name. cbv zeta. rewrite Hst.
    assert (startswith STATTRAK_PREFIX ((c :: b) ++ [32%N; LPAREN] ++ w ++ [RPAREN])
            = false) as ->.
    { apply not_true_is_false. intros E.
      apply startswith_before_paren in E; [congruence|by_decide]. }
    assert (startswith SOUVENIR_PREFIX ((c :: b) ++ [32%N; LPAREN] ++ w ++ [RPAREN])
            = false) as ->.
    { apply not_true_is_false. intros E.
      apply startswith_before_paren in E; [congruence|by_decide]. }
    rewrite Hre. cbn [base_name wear is_stattrak].
    by rewrite Nat.add_0_l, take_app_length.
Qed.

Lemma parse_build_round_trip_witness :
  let p := parse_market_hash_name
             (build_market_hash_name (str_of "AK-47 | Redline")
                                     (str_of "Field-Tested") false) in
  base_name p = str_of "AK-47 | Redline"
  ∧ wear p = Some (str_of "Field-Tested")
  ∧ is_stattrak p = false.
Proof.
  apply (parse_build_round_trip (str_of "AK-47 | Redline") (str_of "Field-Tested") false).
  - by_decide.
  - by_decide.
  - by_decide.
  - vm_compute. reflexivity.
  - intros _. split; [discriminate|]. split; vm_compute; reflexivity.
Defined.

(** C1, as stated, fails: a base name that begins with ["Souvenir "] has no
    parentheses, yet the parser takes the prefix off the base name (and
    [build_market_hash_name] has no way to put an edition-B marker back). *)
Lemma parse_build_round_trip_fails_souvenir :
  let base := str_of "Souvenir AWP | Dragon Lore" in
  (LPAREN ∉ base) ∧ (RPAREN ∉ base) ∧ (str_of "Factory New" ∈ WEARS)
  ∧ base_name (parse_market_hash_name
                 (build_market_hash_name base (str_of "Factory New") false))
    ≠ base.
Proof.
  cbv zeta. split; [by_decide|]. split; [by_decide|]. split; [by_decide|].
  vm_compute. discriminate.
Qed.

(** Further inputs on which the round trip is lost: surrounding whitespace
    (the composer strips it), the empty base name, and a base name that
    begins with the StatTrak marker while the flag is off. *)
Example round_trip_whitespace :
  base_name (parse_market_hash_name
               (build_market_hash_name (str_of " AK-47") (str_of "Factory New") true))
  = str_of "AK-47".
Proof. vm_compute. reflexivity. Qed.

Example round_trip_empty_base :
  let p := parse_market_hash_name
             (build_market_hash_name [] (str_of "Factory New") false) in
  base_name p = str_of "(Factory New)" ∧ wear p = None.
Proof. vm_compute. done. Qed.

Example round_trip_stattrak_base :
  is_stattrak (parse_market_hash_name
                 (build_market_hash_name (STATTRAK_PREFIX ++ str_of "AK-47")
                                         (str_of "Factory New") false))
  = true.
Proof. vm_compute. reflexivity. Qed.

Lemma rstrip_drops_space s c : is_space c = true → rstrip (s ++ [c]) = rstrip s.
Proof. intros Hc. unfold rstrip. rewrite reverse_snoc. cbn [lstrip]. by rewrite Hc. Qed.

(** Stripping a text that goes on after a stripped, non-empty word keeps the
    word in front. *)
Lemma strip_keeps_word a b : a ≠ [] → strip a = a → ∃ t, strip (a ++ b) = a ++ t.
Proof.
  intros Ha Hstrip. destruct a as [|c a]; [done|].
  pose proof (strip_fixed_head _ _ Hstrip) as Hc.
  assert (rstrip (c :: a) = c :: a) as Hr.
  { unfold strip in Hstrip. by rewrite lstrip_cons_nonspace in Hstrip. }
  unfold strip. rewrite <- app_comm_cons, lstrip_cons_nonspace, app_comm_cons by done.
  induction b as [|z b IH] using rev_ind.
  - exists []. by rewrite !app_nil_r.
  - rewrite app_assoc. destruct (is_space z) eqn:Hz.
    + by rewrite rstrip_drops_space.
    + exists (b ++ [z]). by rewrite rstrip_snoc_nonspace, app_assoc.
Qed.

(** The search reports a position at or after the one it starts from. *)
Lemma re_search_wear_from name i j w : re_search_wear name i = Some (j, w) → i ≤ j.
Proof.
  revert i. induction name as [|c name IH]; intros i; [done|].
  cbn [re_search_wear]. destruct (is_space c).
  - destruct (match_wear_tail name); [intros [= <- _]; lia|].
    intros H%IH. lia.
  - intros H%IH. lia.
Qed.

(** The search passes over a word without whitespace. *)
Lemma re_search_wear_skip a t i :
  forallb (λ c, negb (is_space c)) a = true →
  re_search_wear (a ++ t) i = re_search_wear t (i + length a).
Proof.
  revert i. induction a as [|c a IH]; intros i Ha.
  - cbn. by rewrite Nat.add_0_r.
  - cbn [forallb] in Ha. apply andb_true_iff in Ha as [Hc Ha].
    apply negb_true_iff in Hc. rewrite <- app_comm_cons. cbn [re_search_wear].
    rewrite Hc, IH by done. f_equal. cbn [length]. lia.
Qed.

(** C7 (as amended).  Both edition prefixes are tested on the same string,
    the stripped input: the StatTrak flag says whether it begins with
    ["StatTrak™ "], the Souvenir flag whether it begins with ["Souvenir "].
    No string begins with both, so the two flags are never set together.
    In particular, whatever follows, a string that begins with the StatTrak
    prefix followed by the Souvenir prefix yields the StatTrak flag alone,
    and its base name begins with "Souvenir": the second prefix is not
    looked for in the remainder and is not removed. *)
Theorem parse_flags_tested_on_input (raw rest : pystr) :
  let p := parse_market_hash_name raw in
  let q := parse_market_hash_name (STATTRAK_PREFIX ++ SOUVENIR_PREFIX ++ rest) in
  market_hash_name p = strip raw
  ∧ is_stattrak p = startswith STATTRAK_PREFIX (strip raw)
  ∧ is_souvenir p = startswith SOUVENIR_PREFIX (strip raw)
  ∧ (is_stattrak p && is_souvenir p) = false
  ∧ is_stattrak q = true
  ∧ is_souvenir q = false
  ∧ ∃ tail, base_name q = str_of "Souvenir" ++ tail.
Proof.
  cbv zeta. split; [|split; [|split; [|split]]].
  1-4: unfold parse_market_hash_name; cbv zeta;
       destruct (re_search_wear _ 0) as [[start w]|];
       cbn [market_hash_name is_stattrak is_souvenir]; try done;
       apply prefixes_exclusive.
  assert (∃ t, strip (STATTRAK_PREFIX ++ SOUVENIR_PREFIX ++ rest)
               = STATTRAK_PREFIX ++ str_of "Souvenir" ++ t) as [t Ht].
  { destruct (strip_keeps_word (STATTRAK_PREFIX ++ str_of "Souvenir") (32%N :: rest))
      as [t Ht]; [done|by vm_compute|].
    exists t.
    replace (STATTRAK_PREFIX ++ SOUVENIR_PREFIX ++ rest)
      with ((STATTRAK_PREFIX ++ str_of "Souvenir") ++ 32%N :: rest)
      by (by rewrite <- app_assoc).
    by rewrite Ht, <- app_assoc. }
  unfold parse_market_hash_name. cbv zeta. rewrite Ht.
  rewrite startswith_app, souvenir_not_stattrak, drop_app_length.
  rewrite (re_search_wear_skip (str_of "Souvenir")) by done.
  destruct (re_search_wear t _) as [[start w]|] eqn:E;
    cbn [is_stattrak is_souvenir base_name]; (split; [done|]); (split; [done|]).
  - apply re_search_wear_from in E.
    rewrite take_app_ge by done.
    by apply strip_keeps_word.
  - by apply strip_keeps_word.
Qed.

(** C7, as stated, fails: on a string that begins with the StatTrak prefix
    followed by the Souvenir prefix only the StatTrak flag is set, and
    "Souvenir" stays in the base name. *)
Lemma parse_both_prefixes_not_both_flags :
  let p := parse_market_hash_name
             (STATTRAK_PREFIX ++ SOUVENIR_PREFIX
              ++ str_of "AK-47 | Redline (Field-Tested)") in
  ¬ (is_stattrak p = true ∧ is_souvenir p = true)
  ∧ is_stattrak p = true ∧ is_souvenir p = false
  ∧ base_name p = str_of "Souvenir AK-47 | Redline".
Proof. vm_compute. split; [intros [_ ?]; discriminate|done]. Qed.

End ParserTheorems.

(** ** Stable insertion sort *)

Module SortFacts.

Section SortBy.

Context {A K : Type} (key : A → K) (lt : K → K → bool).

#[local] Abbreviation may_precede := (may_precede key lt).

Lemma insert_by_perm x l : insert_by key lt x l ≡ₚ x :: l.
Proof.
  induction l as [|y l IH]; simpl; [done|].
  destruct (lt (key y) (key x)); [|done].
  rewrite IH. apply perm_swap.
Qed.

Lemma sort_by_perm l : sort_by key lt l ≡ₚ l.
Proof.
  induction l as [|x l IH]; simpl; [done|].
  rewrite insert_by_perm. by f_equiv.
Qed.

(** The keys in play are ordered by [lt]: on them "not smaller" is
    reflexive and transitive, and [lt] is asymmetric. *)
Variable good : K → Prop.
Hypothesis lt_asym : ∀ a b, good a → good b → lt a b = true → lt b a = false.
Hypothesis le_trans : ∀ a b c, good a → good b → good c →
  lt b a = false → lt c b = false → lt c a = false.

Lemma insert_by_sorted x l :
  good (key x) → Forall (λ y, good (key y)) l →
  StronglySorted may_precede l → StronglySorted may_precede (insert_by key lt x l).
Proof.
  intros Hx Hl Hs. induction Hs as [|y l Hs IH Hy]; simpl.
  - repeat constructor.
  - apply Forall_cons in Hl as [Hgy Hl].
    destruct (lt (key y) (key x)) eqn:E.
    + constructor; [by apply IH|].
      rewrite insert_by_perm. constructor; [|done].
      unfold may_precede. by apply lt_asym.
    + constructor; [by constructor|].
      constructor; [done|].
      rewrite Forall_forall in Hy, Hl |- *. intros z Hz.
      unfold may_precede in *. eapply (le_trans _ (key y)); eauto.
Qed.

Lemma sort_by_sorted l :
  Forall (λ y, good (key y)) l → StronglySorted may_precede (sort_by key lt l).
Proof.
  induction l as [|x l IH]; simpl; [constructor|].
  intros [Hx Hl]%Forall_cons. apply insert_by_sorted; [done| |by apply IH].
  by rewrite sort_by_perm.
Qed.

End SortBy.

End SortFacts.

(** ** Fuzzy catalog matcher *)

Module MatcherFacts.

Import PyFloat SortFacts.

(** Case analysis on how three prices compare, with what totality and
    transitivity of [<=] allow. *)
Ltac float_cases a b c :=
  pose proof (leb_trans a b c); pose proof (leb_trans a c b);
  pose proof (leb_trans b a c); pose proof (leb_trans b c a);
  pose proof (leb_trans c a b); pose proof (leb_trans c b a);
  destruct (PrimFloat.leb a b), (PrimFloat.leb b a), (PrimFloat.leb b c),
    (PrimFloat.leb c b), (PrimFloat.leb a c), (PrimFloat.leb c a);
  simpl in *; try intuition congruence.

Lemma key_lt_asym a b : key_ok a → key_ok b → key_lt a b = true → key_lt b a = false.
Proof.
  destruct a as [a1 a2], b as [b1 b2]. unfold key_ok, key_lt. simpl. intros Ha Hb.
  rewrite !eqb_leb, !ltb_leb.
  destruct (PrimFloat.leb a1 b1), (PrimFloat.leb b1 a1); simpl; try done.
  rewrite Z.ltb_lt, Z.ltb_ge. lia.
Qed.

Lemma key_le_trans a b c :
  key_ok a → key_ok b → key_ok c →
  key_lt b a = false → key_lt c b = false → key_lt c a = false.
Proof.
  destruct a as [a1 a2], b as [b1 b2], c as [c1 c2]. unfold key_ok, key_lt. simpl.
  intros Ha Hb Hc. rewrite !eqb_leb, !ltb_leb.
  destruct (leb_total a1 b1 Ha Hb), (leb_total b1 c1 Hb Hc), (leb_total a1 c1 Ha Hc).
  all: float_cases a1 b1 c1.
  all: rewrite !Z.ltb_ge; lia.
Qed.

(** What "not smaller" says of two candidates. *)
Lemma may_precede_in_order (a b : candidate) :
  key_ok (sort_key a) → key_ok (sort_key b) →
  may_precede sort_key key_lt a b → in_order a b.
Proof.
  destruct a as [[a1 ar] a2], b as [[b1 br] b2].
  unfold key_ok, may_precede, in_order, key_lt, sort_key. simpl. intros Ha Hb.
  rewrite !eqb_leb, !ltb_leb.
  destruct (leb_total a1 b1 Ha Hb);
    destruct (PrimFloat.leb a1 b1), (PrimFloat.leb b1 a1); simpl in *;
    try done; rewrite ?Z.ltb_ge; intros; split; try done; lia.
Qed.

Lemma may_precede_refl (a : candidate) :
  key_ok (sort_key a) → may_precede sort_key key_lt a a.
Proof.
  destruct a as [[a1 ar] a2]. unfold key_ok, may_precede, key_lt, sort_key. simpl.
  intros Ha. rewrite eqb_leb, (leb_refl a1 Ha). simpl. apply Z.ltb_irrefl.
Qed.

Section WithLower.

Variable lower : pystr → pystr.

Lemma elem_of_collect_candidates items mhn c :
  c ∈ collect_candidates lower items mhn ↔
  ∃ it, it ∈ items
        ∧ candidate_of lower (_norm lower (Some mhn))
            (_norm lower (Some (_simplify mhn))) it = Some c.
Proof. unfold collect_candidates. apply list_elem_of_omap. Qed.

Lemma candidate_of_price target ts it c :
  candidate_of lower target ts it = Some c → min_price it = Some c.1.1.
Proof.
  unfold candidate_of. destruct (min_price it) as [v|]; [|done].
  repeat case_match; intros [= <-]; done.
Qed.

Lemma candidate_of_exact mhn it v :
  exact_entry lower mhn it = true → min_price it = Some v →
  candidate_of lower (_norm lower (Some mhn)) (_norm lower (Some (_simplify mhn))) it
  = Some (v, str_of "exact match: " ++ _norm lower (item_name it), 100%Z).
Proof. unfold exact_entry, candidate_of. by intros -> ->. Qed.

Lemma candidate_of_partial mhn it v :
  partial_entry lower mhn it = true → min_price it = Some v →
  candidate_of lower (_norm lower (Some mhn)) (_norm lower (Some (_simplify mhn))) it
  = Some (v, str_of "partial match: " ++ _norm lower (item_name it),
          _match_score (_norm lower (Some (_simplify mhn))) (_norm lower (item_name it))).
Proof.
  unfold partial_entry, exact_entry, candidate_of.
  intros [[Hne Hts]%andb_true_iff Hc]%andb_true_iff ->.
  apply negb_true_iff in Hne. by rewrite Hne, Hts, Hc.
Qed.

Lemma collect_candidates_numbers items mhn :
  prices_are_numbers items = true →
  Forall (λ c, key_ok (sort_key c)) (collect_candidates lower items mhn).
Proof.
  intros Hnum. apply Forall_forall. intros c (it & Hit & Hc)%elem_of_collect_candidates.
  apply candidate_of_price in Hc. unfold prices_are_numbers in Hnum.
  rewrite forallb_forall in Hnum. apply list_elem_of_In in Hit.
  specialize (Hnum it Hit). rewrite Hc in Hnum.
  unfold key_ok, sort_key. simpl. by apply negb_true_iff.
Qed.

(** The candidate the matcher returns stands, in the sorted order, before
    every candidate. *)
Lemma best_candidate_first c0 cs :
  Forall (λ c, key_ok (sort_key c)) (c0 :: cs) →
  let best := hd c0 (sort_by sort_key key_lt (c0 :: cs)) in
  best ∈ c0 :: cs ∧ ∀ c, c ∈ c0 :: cs → in_order best c.
Proof.
  intros Hok.
  pose proof (sort_by_perm sort_key key_lt (c0 :: cs)) as Hperm.
  pose proof (sort_by_sorted sort_key key_lt key_ok key_lt_asym key_le_trans
                (c0 :: cs) Hok) as Hsorted.
  destruct (sort_by sort_key key_lt (c0 :: cs)) as [|b rest] eqn:E.
  { by apply Permutation_nil_cons in Hperm. }
  cbn [hd]. apply StronglySorted_inv in Hsorted as [_ Hb].
  assert (b ∈ c0 :: cs) as Hin by (rewrite <- Hperm; left).
  split; [done|]. intros c Hc. rewrite <- Hperm in Hc.
  rewrite Forall_forall in Hok, Hb.
  apply may_precede_in_order; [by apply Hok| |].
  - apply Hok. by rewrite <- Hperm.
  - apply elem_of_cons in Hc as [->|Hc]; [|by apply Hb].
    apply may_precede_refl. by apply Hok.
Qed.

End WithLower.

End MatcherFacts.

Module MatcherTheorems.

Import Samples PyStrFacts PyFloat SortFacts MatcherFacts.

Lemma sorted_in_order (l : list candidate) :
  Forall (λ c, key_ok (sort_key c)) l →
  StronglySorted (may_precede sort_key key_lt) l → StronglySorted in_order l.
Proof.
  intros Hok Hs. induction Hs as [|a l Hs IH Ha]; [constructor|].
  apply Forall_cons in Hok as [Hka Hok]. constructor; [by apply IH|].
  rewrite Forall_forall in Ha, Hok |- *. intros b Hb.
  apply may_precede_in_order; auto.
Qed.

(** C2 (as amended).  When the priced records carry numbers and the
    catalogue holds an exact match and a strictly cheaper partial match, the
    matcher returns the least price among all candidates: a price no greater
    than the partial match's, hence strictly below the exact match's, and
    equal to the partial match's when no candidate is cheaper than it.  The
    candidates are sorted by rising price, and by falling score among equal
    prices; the returned candidate is the first of that order. *)
Theorem find_min_price_cheapest_wins
    (lower : pystr → pystr) (items : list item) (mhn : pystr) (debug : bool)
    (e p : item) (pe pp : float) :
  prices_are_numbers items = true →
  e ∈ items → exact_entry lower mhn e = true → min_price e = Some pe →
  p ∈ items → partial_entry lower mhn p = true → min_price p = Some pp →
  PrimFloat.ltb pp pe = true →
  ∃ best : candidate,
    (skinport_find_min_price_usd lower items mhn debug).1 = Some best.1.1
    ∧ best ∈ collect_candidates lower items mhn
    ∧ (∀ c, c ∈ collect_candidates lower items mhn → in_order best c)
    ∧ PrimFloat.leb best.1.1 pp = true
    ∧ PrimFloat.ltb best.1.1 pe = true
    ∧ ((∀ c, c ∈ collect_candidates lower items mhn → PrimFloat.leb pp c.1.1 = true)
       → PrimFloat.eqb best.1.1 pp = true)
    ∧ StronglySorted in_order
        (sort_by sort_key key_lt (collect_candidates lower items mhn)).
Proof.
  intros Hnum He Hex Hpe Hp Hpart Hpp Hlt.
  pose proof (collect_candidates_numbers lower items mhn Hnum) as Hok.
  assert ((pp, str_of "partial match: " ++ _norm lower (item_name p),
           _match_score (_norm lower (Some (_simplify mhn))) (_norm lower (item_name p)))
          ∈ collect_candidates lower items mhn) as Hcp.
  { apply elem_of_collect_candidates. exists p. split; [done|].
    by apply candidate_of_partial. }
  unfold skinport_find_min_price_usd.
  destruct (collect_candidates lower items mhn) as [|c0 cs] eqn:Ecs.
  { by apply elem_of_nil in Hcp. }
  destruct (best_candidate_first c0 cs Hok) as [Hin Hmin].
  set (best := hd c0 (sort_by sort_key key_lt (c0 :: cs))) in *.
  exists best. destruct best as [[bv br] bs] eqn:Ebest. cbn [fst snd].
  destruct (Hmin _ Hcp) as [Hbp _]. cbn [fst snd] in Hbp.
  rewrite ltb_leb in Hlt. apply andb_true_iff in Hlt as [Hle Hnle].
  apply negb_true_iff in Hnle.
  repeat split; try done.
  - by apply Hmin.
  - by apply Hmin.
  - rewrite ltb_leb, (leb_trans bv pp pe Hbp Hle). simpl.
    apply negb_true_iff, not_true_is_false. intros Hc.
    pose proof (leb_trans pe bv pp Hc Hbp). congruence.
  - intros Hall. rewrite eqb_leb, Hbp. simpl. by apply (Hall (bv, br, bs)).
  - apply sorted_in_order.
    + rewrite Forall_forall in Hok |- *. intros c Hc. apply Hok.
      by rewrite <- (sort_by_perm sort_key key_lt (c0 :: cs)).
    + by apply (sort_by_sorted sort_key key_lt key_ok key_lt_asym key_le_trans).
Qed.

Lemma find_min_price_cheapest_wins_witness :
  ∃ best : candidate,
    (skinport_find_min_price_usd ascii_lower (take 2 redline_catalog) redline_ft true).1
    = Some best.1.1
    ∧ best ∈ collect_candidates ascii_lower (take 2 redline_catalog) redline_ft
    ∧ (∀ c, c ∈ collect_candidates ascii_lower (take 2 redline_catalog) redline_ft
            → in_order best c)
    ∧ PrimFloat.leb best.1.1 5 = true
    ∧ PrimFloat.ltb best.1.1 10 = true
    ∧ ((∀ c, c ∈ collect_candidates ascii_lower (take 2 redline_catalog) redline_ft
             → PrimFloat.leb 5 c.1.1 = true)
       → PrimFloat.eqb best.1.1 5 = true)
    ∧ StronglySorted in_order
        (sort_by sort_key key_lt
           (collect_candidates ascii_lower (take 2 redline_catalog) redline_ft)).
Proof.
  apply (find_min_price_cheapest_wins ascii_lower (take 2 redline_catalog) redline_ft true
           {| item_name := Some (str_of "AK-47 | Redline (Field-Tested)");
              min_price := Some 10%float |}
           {| item_name := Some (str_of "AK-47 | Redline (Well-Worn)");
              min_price := Some 5%float |}
           10%float 5%float).
  - vm_compute. reflexivity.
  - apply list_elem_of_here.
  - vm_compute. reflexivity.
  - reflexivity.
  - apply list_elem_of_further, list_elem_of_here.
  - vm_compute. reflexivity.
  - reflexivity.
  - vm_compute. reflexivity.
Defined.

(** C2, as stated, fails: with an exact match at 10 and a partial match at 5
    the catalogue may hold a further candidate that is cheaper still, and it
    is that one's price the matcher returns. *)
Lemma find_min_price_not_the_partial_price :
  let exact := {| item_name := Some (str_of "AK-47 | Redline (Field-Tested)");
                  min_price := Some 10%float |} in
  let partial := {| item_name := Some (str_of "AK-47 | Redline (Well-Worn)");
                    min_price := Some 5%float |} in
  redline_catalog !! 0%nat = Some exact
  ∧ exact_entry ascii_lower redline_ft exact = true
  ∧ redline_catalog !! 1%nat = Some partial
  ∧ partial_entry ascii_lower redline_ft partial = true
  ∧ PrimFloat.ltb 5 10 = true
  ∧ (skinport_find_min_price_usd ascii_lower redline_catalog redline_ft true).1
    = Some 3%float
  ∧ (skinport_find_min_price_usd ascii_lower redline_catalog redline_ft true).1
    ≠ Some 5%float.
Proof.
  cbv zeta. repeat split; try (vm_compute; reflexivity).
  intros H.
  apply (f_equal (λ o, match o with Some x => PrimFloat.eqb x 5 | None => false end)) in H.
  vm_compute in H. discriminate.
Qed.

(** C5 (as amended).  A priced record of the partial tier becomes a
    candidate whose score is 100 when its normalized name is the simplified
    target itself, and otherwise 50 (if the name starts with the simplified
    target) plus 30, less half the difference in length between the name and
    the simplified target, rounded down. *)
Theorem partial_match_score
    (lower : pystr → pystr) (items : list item) (mhn : pystr) (it : item) (v : float) :
  it ∈ items → min_price it = Some v → partial_entry lower mhn it = true →
  let target_simple := _norm lower (Some (_simplify mhn)) in
  let mh := _norm lower (item_name it) in
  let score := if str_eqb mh target_simple then 100%Z
               else partial_score_formula target_simple mh in
  candidate_of lower (_norm lower (Some mhn)) target_simple it
  = Some (v, str_of "partial match: " ++ mh, score)
  ∧ (v, str_of "partial match: " ++ mh, score) ∈ collect_candidates lower items mhn
  ∧ (length target_simple ≤ length mh)%nat.
Proof.
  intros Hin Hv Hpart. cbv zeta.
  pose proof (candidate_of_partial lower mhn it v Hpart Hv) as Hc.
  assert (contains (_norm lower (Some (_simplify mhn))) (_norm lower (item_name it))
          = true) as Hcont.
  { unfold partial_entry in Hpart. by apply andb_true_iff in Hpart as [_ ?]. }
  assert (_match_score (_norm lower (Some (_simplify mhn))) (_norm lower (item_name it))
          = if str_eqb (_norm lower (item_name it)) (_norm lower (Some (_simplify mhn)))
            then 100%Z
            else partial_score_formula (_norm lower (Some (_simplify mhn)))
                   (_norm lower (item_name it))) as Hscore.
  { unfold _match_score, partial_score_formula. rewrite Hcont.
    repeat case_match; reflexivity. }
  rewrite Hscore in Hc. split; [done|]. split.
  - apply elem_of_collect_candidates. eauto.
  - by apply contains_length.
Qed.

Lemma partial_match_score_witness :
  let it := {| item_name := Some (str_of "AK-47 | Redline (Well-Worn)");
               min_price := Some 5%float |} in
  candidate_of ascii_lower (str_of "ak-47 | redline (field-tested)")
    (str_of "ak-47 | redline") it
  = Some (5%float, str_of "partial match: ak-47 | redline (well-worn)", 74%Z).
Proof.
  pose proof (partial_match_score ascii_lower redline_catalog redline_ft
                {| item_name := Some (str_of "AK-47 | Redline (Well-Worn)");
                   min_price := Some 5%float |} 5%float) as H.
  cbv zeta in H. apply H.
  - apply list_elem_of_further, list_elem_of_here.
  - reflexivity.
  - vm_compute. reflexivity.
Defined.

(** C5, as stated, fails: for the target ["Foo (Field-Tested)"] the record
    named ["Foo"] is a partial match (its name is not the normalized target)
    whose name is the simplified target, and [_match_score] gives it 100
    where the formula gives 80. *)
Lemma partial_match_score_not_formula :
  let it := {| item_name := Some (str_of "Foo"); min_price := Some 1%float |} in
  let target := str_of "Foo (Field-Tested)" in
  partial_entry ascii_lower target it = true
  ∧ collect_candidates ascii_lower [it] target
    = [(1%float, str_of "partial match: foo", 100%Z)]
  ∧ partial_score_formula (_norm ascii_lower (Some (_simplify target)))
      (_norm ascii_lower (item_name it)) = 80%Z.
Proof. vm_compute. done. Qed.

(** C6 (as amended).  With [debug] off the reason is absent when at least
    one candidate qualifies, and a price is returned; when no candidate
    qualifies the matcher returns no price and the reason ["no candidates"],
    whatever [debug] says. *)
Theorem find_min_price_debug_off
    (lower : pystr → pystr) (items : list item) (mhn : pystr) :
  let r := skinport_find_min_price_usd lower items mhn false in
  let cands := collect_candidates lower items mhn in
  (cands = [] →
     ∀ debug, skinport_find_min_price_usd lower items mhn debug
              = (None, Some (str_of "no candidates")))
  ∧ (cands ≠ [] → is_Some r.1 ∧ r.2 = None)
  ∧ (r.2 = None ↔ cands ≠ []).
Proof.
  cbv zeta. unfold skinport_find_min_price_usd.
  destruct (collect_candidates lower items mhn) as [|c0 cs]; cbn [fst snd].
  - split; [done|]. split; [done|]. split; [done|]. intros H. by destruct H.
  - destruct (hd c0 (sort_by sort_key key_lt (c0 :: cs))) as [[bv br] bs].
    cbn [fst snd]. split; [done|]. split; [eauto|]. done.
Qed.

(** C6, as stated, fails: on an empty catalogue, with [debug] off, the
    reason component is the string ["no candidates"]. *)
Lemma find_min_price_reason_without_debug :
  (skinport_find_min_price_usd ascii_lower [] (str_of "Anything") false).2 ≠ None
  ∧ skinport_find_min_price_usd ascii_lower [] (str_of "Anything") false
    = (None, Some (str_of "no candidates")).
Proof. vm_compute. done. Qed.

End MatcherTheorems.

(** ** Fee model *)

Module FeesTheorems.

Import Fees.

#[local] Set Warnings "-inexact-float".

Lemma market_names_differ :
  str_eqb STEAM STEAM = true ∧ str_eqb SKINPORT STEAM = false
  ∧ str_eqb SKINPORT SKINPORT = true ∧ str_eqb SKINBARON STEAM = false
  ∧ str_eqb SKINBARON SKINPORT = false ∧ str_eqb SKINBARON SKINBARON = true.
Proof. vm_compute. done. Qed.

(** Indexing a document that has no ["market_fees"] key raises [KeyError],
    before the marketplace is looked at. *)
Lemma fees_without_market_fees (market : pystr) (price : float) (cfg : fees_cfg) :
  cfg !! MARKET_FEES = None →
  apply_seller_net_usd market price cfg = KeyError MARKET_FEES
  ∧ apply_buyer_total_usd market price cfg = KeyError MARKET_FEES.
Proof. unfold apply_seller_net_usd, apply_buyer_total_usd. by intros ->. Qed.

(** C3 (as amended).  For a schedule document that has the ["market_fees"]
    mapping but configures no seller rate for the marketplace, the seller
    net of 100.0 is 88.0 on "skinport" (default rate 0.12) and 85.0 on
    "steam" (default rate 0.15); the buyer total on "steam" is the price
    itself, 100.0.  The mapping may be empty. *)
Theorem fee_defaults_when_unconfigured
    (cfg : fees_cfg) (fees : gmap pystr (gmap pystr float)) :
  cfg !! MARKET_FEES = Some fees →
  default ∅ (fees !! SKINPORT) !! SELLER_FEE_RATE = None →
  default ∅ (fees !! STEAM) !! SELLER_FEE_RATE = None →
  apply_seller_net_usd SKINPORT 100 cfg = Ok 88%float
  ∧ apply_seller_net_usd STEAM 100 cfg = Ok 85%float
  ∧ apply_buyer_total_usd STEAM 100 cfg = Ok 100%float.
Proof.
  intros Hcfg Hsp Hst. unfold apply_seller_net_usd, apply_buyer_total_usd.
  destruct market_names_differ as (E1 & E2 & E3 & _).
  rewrite Hcfg, E1, E2, E3, Hsp, Hst. done.
Qed.

Lemma fee_defaults_when_unconfigured_witness :
  apply_seller_net_usd SKINPORT 100 {[ MARKET_FEES := ∅ ]} = Ok 88%float
  ∧ apply_seller_net_usd STEAM 100 {[ MARKET_FEES := ∅ ]} = Ok 85%float
  ∧ apply_buyer_total_usd STEAM 100 {[ MARKET_FEES := ∅ ]} = Ok 100%float.
Proof.
  apply (fee_defaults_when_unconfigured {[ MARKET_FEES := ∅ ]} ∅).
  - vm_compute. reflexivity.
  - vm_compute. reflexivity.
  - vm_compute. reflexivity.
Defined.

(** C3, as stated, fails: the empty document [{}] has no ["market_fees"]
    key, and each of the three calls raises [KeyError] on it. *)
Lemma fee_defaults_empty_document :
  apply_seller_net_usd SKINPORT 100 ∅ ≠ Ok 88%float
  ∧ apply_seller_net_usd SKINPORT 100 ∅ = KeyError MARKET_FEES
  ∧ apply_seller_net_usd STEAM 100 ∅ = KeyError MARKET_FEES
  ∧ apply_buyer_total_usd STEAM 100 ∅ = KeyError MARKET_FEES.
Proof. vm_compute. done. Qed.

(** The third default, and a configured rate taking precedence. *)
Example seller_net_skinbaron_default :
  apply_seller_net_usd SKINBARON 100 {[ MARKET_FEES := ∅ ]} = Ok 90%float.
Proof. vm_compute. reflexivity. Qed.

Example seller_net_configured :
  apply_seller_net_usd SKINPORT 100
    {[ MARKET_FEES := {[ SKINPORT := {[ SELLER_FEE_RATE := 0.5%float ]} ]} ]}
  = Ok 50%float.
Proof. vm_compute. reflexivity. Qed.

End FeesTheorems.

(** ** Price display normalizer *)

Module NormalizerTheorems.

Import Normalizer PyFloat.

#[local] Set Warnings "-inexact-float".

(** C4.  A price is replaced by ["exceeds limit"] exactly when it is
    strictly greater than the cap; a price at most the cap comes back
    unchanged, in particular a price equal to the cap; an absent price stays
    absent. *)
Theorem cap_display_boundary (price cap : float) :
  (enforce_scm_cap_display (Some price) cap = Some (inl EXCEEDS_LIMIT)
   ↔ PrimFloat.ltb cap price = true)
  ∧ (PrimFloat.leb price cap = true
     → enforce_scm_cap_display (Some price) cap = Some (inr price))
  ∧ (PrimFloat.ltb cap price = false
     → enforce_scm_cap_display (Some price) cap = Some (inr price))
  ∧ enforce_scm_cap_display (Some cap) cap = Some (inr cap)
  ∧ enforce_scm_cap_display None cap = None
  ∧ EXCEEDS_LIMIT = str_of "exceeds limit".
Proof.
  unfold enforce_scm_cap_display. repeat split.
  - by destruct (PrimFloat.ltb cap price).
  - by intros ->.
  - intros Hle. rewrite ltb_leb, Hle. by rewrite andb_false_r.
  - by intros ->.
  - rewrite ltb_leb. by destruct (PrimFloat.leb cap cap).
Qed.

Example cap_display_at_cap :
  enforce_scm_cap_display (Some 2000%float) 2000 = Some (inr 2000%float).
Proof. vm_compute. reflexivity. Qed.

Example cap_display_above_cap :
  enforce_scm_cap_display (Some 2000.01%float) 2000 = Some (inl (str_of "exceeds limit")).
Proof. vm_compute. reflexivity. Qed.

Example cap_display_absent : enforce_scm_cap_display None 2000 = None.
Proof. reflexivity. Qed.

End NormalizerTheorems.

(** ** Comparison orchestrator *)

Module OrchestratorFacts.

Import Orchestrator.

Section WithWorld.

Variable lower : pystr → pystr.
Variable World : Type.
Variable steam_get_price_usd : pystr → World → option float * World.

#[local] Abbreviation check_one := (check_one lower World steam_get_price_usd).
#[local] Abbreviation run_check_loop := (run_check_loop lower World steam_get_price_usd).
#[local] Abbreviation steam_answers := (steam_answers World steam_get_price_usd).

(** What the body of the loop puts in the row of one identifier. *)
Lemma check_one_row sp_items show_debug mh w :
  let r := (check_one sp_items show_debug mh w).1 in
  r_market_hash_name r = mh
  ∧ steam_usd r = (steam_get_price_usd mh w).1
  ∧ skinport_min_usd r = (skinport_find_min_price_usd lower sp_items mh true).1
  ∧ spread_usd r = spread_of (steam_usd r) (skinport_min_usd r)
  ∧ (check_one sp_items show_debug mh w).2 = (steam_get_price_usd mh w).2.
Proof.
  unfold Orchestrator.check_one.
  destruct (skinport_find_min_price_usd lower sp_items mh true) as [sp reason].
  destruct (steam_get_price_usd mh w) as [answer w']. done.
Qed.

(** The loop appends to [rows_out] one row per identifier, in turn. *)
Lemma run_check_loop_appends sp_items show_debug watch rows_out w :
  ∃ rows,
    (run_check_loop sp_items show_debug watch rows_out w).1 = rows_out ++ rows
    ∧ r_market_hash_name <$> rows = watch
    ∧ steam_usd <$> rows = steam_answers watch w
    ∧ skinport_min_usd <$> rows
      = (λ mh, (skinport_find_min_price_usd lower sp_items mh true).1) <$> watch
    ∧ Forall (λ r, spread_usd r = spread_of (steam_usd r) (skinport_min_usd r)) rows.
Proof.
  revert rows_out w. induction watch as [|mh watch IH]; intros rows_out w.
  - exists []. simpl. by rewrite app_nil_r.
  - cbn [Orchestrator.run_check_loop Orchestrator.steam_answers].
    pose proof (check_one_row sp_items show_debug mh w) as Hrow. cbv zeta in Hrow.
    destruct (check_one sp_items show_debug mh w) as [row w1].
    destruct (steam_get_price_usd mh w) as [answer w2].
    cbn [fst snd] in Hrow. destruct Hrow as (Hn & Hs & Hp & Hsp & ->).
    destruct (IH (rows_out ++ [row]) w2) as (rows & -> & Hns & Hss & Hps & Hsps).
    exists (row :: rows). rewrite <- app_assoc. split; [done|].
    rewrite !fmap_cons, Hn, Hs, Hp, Hns, Hss, Hps. repeat split; try done.
    by constructor.
Qed.

End WithWorld.

Lemma spread_of_present (a b : option float) :
  is_Some (spread_of a b) ↔ is_Some a ∧ is_Some b.
Proof.
  destruct a, b; simpl; split.
  all: try (intros H; first [by apply is_Some_None in H | split; eauto]).
  all: intros [H1 H2];
    first [by apply is_Some_None in H1 | by apply is_Some_None in H2 | eauto].
Qed.

End OrchestratorFacts.

Module OrchestratorTheorems.

Import Orchestrator OrchestratorFacts PyFloat.

(** C9.  For every sequence of requested identifiers, every catalogue and
    every behaviour of the Steam endpoint, the loop produces exactly one row
    per identifier, in order: the row carries the identifier, the answer the
    endpoint gave for it (possibly none) and the matcher's price (possibly
    none).  Its spread is the difference of the two prices when both are
    present and is absent otherwise, so a row whose two sources failed has
    both prices and the spread absent. *)
Theorem run_check_one_row_per_identifier
    (lower : pystr → pystr) (World : Type)
    (steam_get_price_usd : pystr → World → option float * World)
    (sp_items : list item) (show_debug : bool) (watch : list pystr) (w : World) :
  let rows := (run_check_loop lower World steam_get_price_usd
                 sp_items show_debug watch [] w).1 in
  length rows = length watch
  ∧ r_market_hash_name <$> rows = watch
  ∧ steam_usd <$> rows = steam_answers World steam_get_price_usd watch w
  ∧ skinport_min_usd <$> rows
    = (λ mh, (skinport_find_min_price_usd lower sp_items mh true).1) <$> watch
  ∧ Forall (λ r,
      spread_usd r = spread_of (steam_usd r) (skinport_min_usd r)
      ∧ (is_Some (spread_usd r) ↔ is_Some (steam_usd r) ∧ is_Some (skinport_min_usd r))
      ∧ (steam_usd r = None ∨ skinport_min_usd r = None → spread_usd r = None)) rows.
Proof.
  cbv zeta.
  destruct (run_check_loop_appends lower World steam_get_price_usd
              sp_items show_debug watch [] w) as (rows & -> & Hn & Hs & Hp & Hsp).
  rewrite app_nil_l. split; [|repeat split; try done].
  - by rewrite <- Hn, length_fmap.
  - eapply Forall_impl; [exact Hsp|]. intros r ->.
    split; [done|]. split; [apply spread_of_present|].
    by intros [->| ->]; destruct (steam_usd r).
Qed.

(** The run as a whole checks the first [max_items] entries of the watchlist. *)
Lemma run_check_row_count
    (lower : pystr → pystr) (World : Type)
    (steam_get_price_usd : pystr → World → option float * World)
    (sp_items : list item) (show_debug : bool)
    (watchlist : list pystr) (max_items : nat) (w : World) :
  length (run_check lower World steam_get_price_usd
            sp_items show_debug watchlist max_items w).1
  = min max_items (length watchlist).
Proof.
  unfold run_check.
  destruct (run_check_loop_appends lower World steam_get_price_usd
              sp_items show_debug (take max_items watchlist) [] w)
    as (rows & -> & Hn & _).
  rewrite app_nil_l. apply (f_equal length) in Hn.
  rewrite length_fmap, length_take in Hn. done.
Qed.

(** A run in which Steam never answers and the catalogue is empty. *)
Example run_check_total_failure :
  (run_check ascii_lower unit (λ _ w, (None, w)) [] false
     [str_of "AK-47 | Redline (Field-Tested)"; str_of "Souvenir AWP | Dragon Lore (Factory New)"]
     50 tt).1
  = [ {| r_base_name := str_of "AK-47 | Redline";
         r_wear := Some (str_of "Field-Tested");
         r_stattrak := false;
         r_market_hash_name := str_of "AK-47 | Redline (Field-Tested)";
         steam_usd := None; skinport_min_usd := None; spread_usd := None;
         match_debug := None |};
      {| r_base_name := str_of "AWP | Dragon Lore";
         r_wear := Some (str_of "Factory New");
         r_stattrak := false;
         r_market_hash_name := str_of "Souvenir AWP | Dragon Lore (Factory New)";
         steam_usd := None; skinport_min_usd := None; spread_usd := None;
         match_debug := None |} ].
Proof. vm_compute. reflexivity. Qed.

End OrchestratorTheorems.

(** ** Watchlist *)

Module WatchlistFacts.

Import Watchlist.

Lemma get_ensure st : get_watchlist (ensure_watchlist st) = get_watchlist st.
Proof. by destruct st as [[l|]]. Qed.

Lemma ensure_ensure st : ensure_watchlist (ensure_watchlist st) = ensure_watchlist st.
Proof. by destruct st as [[l|]]. Qed.

Lemma str_in_true mh l : str_in mh l = true ↔ mh ∈ l.
Proof. unfold str_in. apply bool_decide_eq_true. Qed.

Lemma str_in_false mh l : str_in mh l = false ↔ mh ∉ l.
Proof. unfold str_in. apply bool_decide_eq_false. Qed.

Lemma nonempty_false (s : pystr) : nonempty s = false ↔ s = [].
Proof. by destruct s. Qed.

(** What the list is after [add_to_watchlist]. *)
Lemma get_add mh st :
  get_watchlist (add_to_watchlist mh st)
  = if nonempty mh && negb (str_in mh (get_watchlist st))
    then get_watchlist st ++ [mh]
    else get_watchlist st.
Proof.
  unfold add_to_watchlist. rewrite get_ensure.
  destruct (nonempty mh && negb (str_in mh (get_watchlist st))); [done|].
  apply get_ensure.
Qed.

Lemma get_some l : get_watchlist {| watchlist := Some l |} = l.
Proof. reflexivity. Qed.

Lemma add_to_watchlist_eq mh st :
  add_to_watchlist mh st
  = if nonempty mh && negb (str_in mh (get_watchlist st))
    then {| watchlist := Some (get_watchlist st ++ [mh]) |}
    else ensure_watchlist st.
Proof. unfold add_to_watchlist. by rewrite get_ensure. Qed.

(** What the list is after [remove_from_watchlist]. *)
Lemma get_remove mh st :
  get_watchlist (remove_from_watchlist mh st)
  = List.filter (λ x, negb (str_eqb x mh)) (get_watchlist st).
Proof. unfold remove_from_watchlist. by rewrite get_ensure. Qed.

Lemma elem_of_remove mh st x :
  x ∈ get_watchlist (remove_from_watchlist mh st) ↔ x ∈ get_watchlist st ∧ x ≠ mh.
Proof.
  rewrite get_remove, !list_elem_of_In, filter_In, negb_true_iff.
  unfold str_eqb. by rewrite bool_decide_eq_false.
Qed.

Lemma add_NoDup mh st :
  NoDup (get_watchlist st) → NoDup (get_watchlist (add_to_watchlist mh st)).
Proof.
  intros Hnd. rewrite get_add.
  destruct (nonempty mh && negb (str_in mh (get_watchlist st))) eqn:E; [|done].
  apply andb_true_iff in E as [_ E]. apply negb_true_iff, str_in_false in E.
  apply NoDup_app. split; [done|]. split; [|apply NoDup_singleton].
  intros x Hx ?%list_elem_of_singleton. by subst.
Qed.

Lemma remove_NoDup mh st :
  NoDup (get_watchlist st) → NoDup (get_watchlist (remove_from_watchlist mh st)).
Proof.
  intros Hnd. rewrite get_remove.
  induction Hnd as [|x l Hx Hnd IH]; [constructor|].
  cbn [List.filter]. destruct (negb (str_eqb x mh)); [|done].
  constructor; [|done].
  rewrite list_elem_of_In, filter_In, <- list_elem_of_In. by intros [? _].
Qed.

Lemma add_pasted_names_NoDup lines added st :
  NoDup (get_watchlist st) →
  NoDup (get_watchlist (add_pasted_names lines added st).1).
Proof.
  revert added st. induction lines as [|mh lines IH]; intros added st Hnd; [done|].
  cbn [add_pasted_names]. destruct (negb (str_in mh (get_watchlist st))).
  - apply IH. by apply add_NoDup.
  - by apply IH.
Qed.

Lemma script_run_NoDup st ev :
  NoDup (get_watchlist st) → NoDup (get_watchlist (script_run st ev)).
Proof.
  intros Hnd. rewrite <- get_ensure in Hnd. unfold script_run.
  destruct ev as [mh|mh|raw_lines].
  - destruct (str_in mh (get_watchlist (ensure_watchlist st))); [done|].
    by apply add_NoDup.
  - by apply remove_NoDup.
  - by apply add_pasted_names_NoDup.
Qed.

Lemma foldl_script_run_NoDup events st :
  NoDup (get_watchlist st) → NoDup (get_watchlist (foldl script_run st events)).
Proof.
  revert st. induction events as [|ev events IH]; intros st Hnd; [done|].
  cbn [foldl]. apply IH. by apply script_run_NoDup.
Qed.

End WatchlistFacts.

Module WatchlistTheorems.

Import Watchlist WatchlistFacts.

(** C10.  Whatever the user does, the watchlist never holds a name twice.
    Adding a name that is already there, or the empty name, leaves the list
    as it is, and adding is idempotent; removing a name takes every
    occurrence of it away and nothing else.  Both keep the remaining entries
    in their order: adding extends the list at its end, removing leaves a
    sublist. *)
Theorem watchlist_never_has_duplicates :
  (∀ events, NoDup (get_watchlist (session events)))
  ∧ (∀ st mh, NoDup (get_watchlist st) →
       NoDup (get_watchlist (add_to_watchlist mh st))
       ∧ NoDup (get_watchlist (remove_from_watchlist mh st)))
  ∧ (∀ st mh, mh = [] ∨ mh ∈ get_watchlist st →
       get_watchlist (add_to_watchlist mh st) = get_watchlist st)
  ∧ (∀ st mh, add_to_watchlist mh (add_to_watchlist mh st) = add_to_watchlist mh st)
  ∧ (∀ st mh x, x ∈ get_watchlist (remove_from_watchlist mh st)
                ↔ x ∈ get_watchlist st ∧ x ≠ mh)
  ∧ (∀ st mh, get_watchlist st `prefix_of` get_watchlist (add_to_watchlist mh st))
  ∧ (∀ st mh, get_watchlist (remove_from_watchlist mh st) `sublist_of` get_watchlist st).
Proof.
  split; [|split; [|split; [|split; [|split; [|split]]]]].
  - intros events. apply foldl_script_run_NoDup. constructor.
  - intros st mh Hnd. split; [by apply add_NoDup|by apply remove_NoDup].
  - intros st mh H. rewrite get_add. destruct H as [->|Hin]; [done|].
    apply str_in_true in Hin. rewrite Hin. by rewrite andb_false_r.
  - intros st mh. rewrite (add_to_watchlist_eq mh st).
    destruct (nonempty mh && negb (str_in mh (get_watchlist st))) eqn:E.
    + assert (str_in mh (get_watchlist st ++ [mh]) = true) as Hin.
      { apply str_in_true, elem_of_app. right. by apply list_elem_of_singleton. }
      by rewrite add_to_watchlist_eq, get_some, Hin, andb_false_r.
    + by rewrite add_to_watchlist_eq, get_ensure, E, ensure_ensure.
  - intros st mh x. apply elem_of_remove.
  - intros st mh. rewrite get_add.
    destruct (nonempty mh && negb (str_in mh (get_watchlist st))).
    + by apply prefix_app_r.
    + done.
  - intros st mh. rewrite get_remove.
    induction (get_watchlist st) as [|x l IH]; [done|].
    cbn [List.filter]. destruct (negb (str_eqb x mh)).
    + by apply sublist_skip.
    + by apply sublist_cons.
Qed.

(** A session: two names added, one of them twice, one pasted again, one
    removed. *)
Example session_sample :
  get_watchlist
    (session [ ClickAdd (str_of "AK-47 | Redline (Field-Tested)");
               ClickAdd (str_of "AWP | Asiimov (Field-Tested)");
               PasteNames [ str_of "  AK-47 | Redline (Field-Tested) ";
                            str_of "   ";
                            str_of "M4A4 | Howl (Factory New)" ];
               ClickRemove (str_of "AWP | Asiimov (Field-Tested)") ])
  = [ str_of "AK-47 | Redline (Field-Tested)"; str_of "M4A4 | Howl (Factory New)" ].
Proof. vm_compute. reflexivity. Qed.

End WatchlistTheorems.

(** ** Further facts about the string helpers *)

Import PyStrFacts ParserFacts.

Module StripFacts.

Lemma lstrip_head c s t : lstrip s = c :: t → is_space c = false.
Proof.
  induction s as [|a s IH]; simpl; [done|].
  destruct (is_space a) eqn:E; [done|]. by intros [= <- _].
Qed.

Lemma lstrip_idem s : lstrip (lstrip s) = lstrip s.
Proof.
  destruct (lstrip s) as [|c t] eqn:E; [done|].
  apply lstrip_head in E. by apply lstrip_cons_nonspace.
Qed.

Lemma lstrip_snoc_nonspace s c :
  is_space c = false → lstrip (s ++ [c]) = lstrip s ++ [c].
Proof.
  intros Hc. induction s as [|a s IH]; simpl; [by rewrite Hc|].
  destruct (is_space a); [done|done].
Qed.

Lemma rstrip_cons_nonspace c s :
  is_space c = false → rstrip (c :: s) = c :: rstrip s.
Proof.
  intros Hc. unfold rstrip.
  by rewrite reverse_cons, lstrip_snoc_nonspace, reverse_snoc.
Qed.

Lemma rstrip_idem s : rstrip (rstrip s) = rstrip s.
Proof. unfold rstrip. by rewrite reverse_involutive, lstrip_idem. Qed.

Lemma strip_idem s : strip (strip s) = strip s.
Proof.
  unfold strip. destruct (lstrip s) as [|c t] eqn:E; [done|].
  apply lstrip_head in E.
  rewrite (rstrip_cons_nonspace c t E), (lstrip_cons_nonspace c _ E).
  by rewrite <- (rstrip_cons_nonspace c t E), rstrip_idem.
Qed.

(** The last character of a stripped string is not blank. *)
Lemma rstrip_last s c : last (rstrip s) = Some c → is_space c = false.
Proof.
  unfold rstrip. rewrite last_reverse. destruct (lstrip (reverse s)) as [|a t] eqn:E; [done|].
  simpl. intros [= <-]. by eapply lstrip_head.
Qed.

Lemma strip_last s c : last (strip s) = Some c → is_space c = false.
Proof. apply rstrip_last. Qed.

End StripFacts.

(** ** Identifier parser: the shape of its output *)

Module ParserProperties.

Import StripFacts ParserTheorems.

Lemma match_wear_tail_in_sound tiers s w :
  match_wear_tail_in tiers s = Some w →
  w ∈ tiers
  ∧ ∃ rest, s = LPAREN :: w ++ [RPAREN] ++ rest ∧ forallb is_space rest = true.
Proof.
  induction tiers as [|t tiers IH]; [done|]. cbn [match_wear_tail_in].
  destruct (startswith (LPAREN :: t ++ [RPAREN]) s) eqn:E.
  - destruct (forallb is_space (drop (length (LPAREN :: t ++ [RPAREN])) s)) eqn:F.
    + cbn. intros [= <-]. split; [left|].
      apply startswith_true in E as [rest ->]. exists rest.
      rewrite drop_app_length in F. split; [|done].
      rewrite <- app_comm_cons. f_equal. by rewrite <- app_assoc.
    + cbn. intros H. destruct (IH H) as [Hin Hrest]. split; [by right|done].
  - cbn. intros H. destruct (IH H) as [Hin Hrest]. split; [by right|done].
Qed.

(** A successful search points at a blank followed by ["(tier)"] and
    whitespace only. *)
Lemma re_search_wear_sound name i j w :
  re_search_wear name i = Some (j, w) →
  ∃ pre c rest,
    name = pre ++ c :: LPAREN :: w ++ [RPAREN] ++ rest
    ∧ is_space c = true ∧ forallb is_space rest = true
    ∧ j = i + length pre ∧ w ∈ WEARS.
Proof.
  revert i. induction name as [|c name IH]; intros i; [done|].
  cbn [re_search_wear].
  assert (re_search_wear name (S i) = Some (j, w) →
          ∃ pre c0 rest,
            c :: name = pre ++ c0 :: LPAREN :: w ++ [RPAREN] ++ rest
            ∧ is_space c0 = true ∧ forallb is_space rest = true
            ∧ j = i + length pre ∧ w ∈ WEARS) as Hrec.
  { intros H. destruct (IH _ H) as (pre & c0 & rest & -> & Hc & Hr & -> & Hw).
    exists (c :: pre), c0, rest. repeat split; try done; simpl; lia. }
  destruct (is_space c) eqn:Ec; [|done].
  destruct (match_wear_tail name) as [w'|] eqn:Em; [|done].
  intros [= <- <-]. apply match_wear_tail_in_sound in Em as [Hw (rest & -> & Hr)].
  exists [], c, rest. repeat split; try done; simpl; lia.
Qed.

(** The string searched for the wear: the stripped input less its edition
    prefix. *)
Lemma parse_name_split raw :
  let p := parse_market_hash_name raw in
  ∃ name,
    market_hash_name p
    = (if is_stattrak p then STATTRAK_PREFIX
       else if is_souvenir p then SOUVENIR_PREFIX else []) ++ name
    ∧ (∀ w, wear p = Some w →
         ∃ start, re_search_wear name 0 = Some (start, w)
                  ∧ base_name p = strip (take start name))
    ∧ (wear p = None → re_search_wear name 0 = None ∧ base_name p = strip name).
Proof.
  cbv zeta. unfold parse_market_hash_name. cbv zeta.
  pose proof (prefixes_exclusive (strip raw)) as Hex.
  destruct (startswith STATTRAK_PREFIX (strip raw)) eqn:Est.
  - rewrite andb_true_l in Hex. rewrite Hex.
    apply startswith_true in Est as [t Ht]. rewrite Ht, drop_app_length.
    exists t. destruct (re_search_wear t 0) as [[start w]|] eqn:E;
      cbn [market_hash_name is_stattrak is_souvenir wear base_name].
    + split; [done|]. split; [|done]. intros w' [= <-]. eauto.
    + split; [done|]. split; [done|]. done.
  - destruct (startswith SOUVENIR_PREFIX (strip raw)) eqn:Esv.
    + apply startswith_true in Esv as [t Ht]. rewrite Ht, drop_app_length.
      exists t. destruct (re_search_wear t 0) as [[start w]|] eqn:E;
        cbn [market_hash_name is_stattrak is_souvenir wear base_name].
      * split; [done|]. split; [|done]. intros w' [= <-]. eauto.
      * split; [done|]. split; [done|]. done.
    + exists (strip raw). destruct (re_search_wear (strip raw) 0) as [[start w]|] eqn:E;
        cbn [market_hash_name is_stattrak is_souvenir wear base_name].
      * split; [done|]. split; [|done]. intros w' [= <-]. eauto.
      * split; [done|]. split; [done|]. done.
Qed.

Lemma parse_stored_identifier raw :
  market_hash_name (parse_market_hash_name raw) = strip raw.
Proof.
  unfold parse_market_hash_name. cbv zeta. by destruct (re_search_wear _ 0) as [[??]|].
Qed.

Lemma parse_wear_tier raw w :
  wear (parse_market_hash_name raw) = Some w → w ∈ WEARS.
Proof.
  destruct (parse_name_split raw) as (name & _ & Hw & _). cbv zeta in Hw.
  intros Hwear. destruct (Hw w Hwear) as (start & Hre & _).
  by apply re_search_wear_sound in Hre as (? & ? & ? & _ & _ & _ & _ & ?).
Qed.

(** Whatever the input, the parser's record is well formed: the base name
    has no surrounding whitespace, a reported wear is one of the five tiers,
    and parsing the stored identifier again gives the same record. *)
Theorem parse_output_well_formed (raw : pystr) :
  let p := parse_market_hash_name raw in
  strip (base_name p) = base_name p
  ∧ strip (market_hash_name p) = market_hash_name p
  ∧ (∀ w, wear p = Some w → w ∈ WEARS)
  ∧ parse_market_hash_name (market_hash_name p) = p.
Proof.
  cbv zeta.
  pose proof (parse_stored_identifier raw) as Hmh.
  split; [|split; [|split]].
  - unfold parse_market_hash_name. cbv zeta.
    destruct (re_search_wear _ 0) as [[??]|]; cbn [base_name]; apply strip_idem.
  - rewrite Hmh. apply strip_idem.
  - intros w. apply parse_wear_tier.
  - rewrite Hmh. unfold parse_market_hash_name. cbv zeta. by rewrite strip_idem.
Qed.

(** Where the parser reports a wear tier, the stripped identifier is its
    edition prefix (if any), then some text, one whitespace character and
    the tier in parentheses at the very end; the base name is that text,
    stripped. *)
Theorem parse_wear_decomposition (raw w : pystr) :
  let p := parse_market_hash_name raw in
  wear p = Some w →
  ∃ pre c,
    is_space c = true
    ∧ market_hash_name p
      = (if is_stattrak p then STATTRAK_PREFIX
         else if is_souvenir p then SOUVENIR_PREFIX else [])
        ++ pre ++ [c; LPAREN] ++ w ++ [RPAREN]
    ∧ base_name p = strip pre.
Proof.
  cbv zeta. intros Hwear.
  destruct (parse_name_split raw) as (name & Hmh & Hw & _). cbv zeta in Hmh, Hw.
  destruct (Hw w Hwear) as (start & Hre & Hbase).
  apply re_search_wear_sound in Hre as (pre & c & rest & Hname & Hc & Hrest & -> & _).
  assert (rest = []) as ->.
  { destruct (last rest) as [z|] eqn:Hlast; [|by apply last_None].
    exfalso.
    assert (is_space z = true) as Hz.
    { rewrite forallb_forall in Hrest. apply Hrest, list_elem_of_In.
      apply last_Some in Hlast as [l' ->]. apply elem_of_app. right. by left. }
    assert (last (market_hash_name (parse_market_hash_name raw)) = Some z) as Hl.
    { rewrite Hmh, Hname. apply last_Some in Hlast as [l' ->].
      rewrite !app_assoc, !app_comm_cons, !app_assoc. apply last_snoc. }
    rewrite parse_stored_identifier in Hl. apply strip_last in Hl. congruence. }
  exists pre, c. split; [done|]. split.
  - rewrite Hmh, Hname. by rewrite app_nil_r.
  - rewrite Hbase, Hname. simpl. by rewrite take_app_length.
Qed.

Lemma parse_wear_decomposition_witness :
  ∃ pre c,
    is_space c = true
    ∧ STATTRAK_PREFIX ++ str_of "AK-47 | Redline (Field-Tested)"
      = STATTRAK_PREFIX ++ pre ++ [c; LPAREN] ++ str_of "Field-Tested" ++ [RPAREN]
    ∧ str_of "AK-47 | Redline" = strip pre.
Proof.
  exact (parse_wear_decomposition
           (STATTRAK_PREFIX ++ str_of "AK-47 | Redline (Field-Tested)")
           (str_of "Field-Tested") eq_refl).
Defined.

End ParserProperties.

(** ** Composed identifiers *)

Module BuildProperties.

Import StripFacts ParserTheorems.

Lemma build_market_hash_name_eq b w flag :
  w ∈ WEARS →
  build_market_hash_name b w flag
  = ((if flag then STATTRAK_PREFIX else []) ++ strip b) ++ [32%N; LPAREN] ++ w ++ [RPAREN].
Proof.
  intros Hw. unfold build_market_hash_name. cbv zeta. rewrite (strip_wear _ Hw).
  destruct flag; [|done]. by rewrite <- app_assoc.
Qed.

(** Two texts that end in a tier in parentheses are equal only if the tiers
    are, and then the texts before them are equal too. *)
Lemma wear_suffix_inj x x' w w' :
  w ∈ WEARS → w' ∈ WEARS →
  x ++ [32%N; LPAREN] ++ w ++ [RPAREN] = x' ++ [32%N; LPAREN] ++ w' ++ [RPAREN] →
  w = w' ∧ x = x'.
Proof.
  intros Hw Hw' H. apply (f_equal reverse) in H.
  rewrite (reverse_app x), (reverse_app x') in H.
  revert w' Hw' H. revert w Hw.
  refine (wears_cases _ _ _ _ _ _); refine (wears_cases _ _ _ _ _ _); intros H.
  all: match type of H with
       | reverse ?a ++ _ = reverse ?b ++ _ =>
           let ra := eval vm_compute in (reverse a) in
           let rb := eval vm_compute in (reverse b) in
           change (reverse a) with ra in H; change (reverse b) with rb in H
       end; cbn [app] in H.
  all: first [ discriminate H
             | split; [reflexivity|]; apply (inj reverse); congruence ].
Qed.

(** A composed identifier determines the wear and the base name it was made
    of: two calls that give the same identifier were given the same tier and,
    after stripping and the StatTrak prefix, the same base name.  With the
    same flag the stripped base names are equal. *)
Theorem build_determines_wear_and_base (b b' w w' : pystr) (flag flag' : bool) :
  w ∈ WEARS → w' ∈ WEARS →
  build_market_hash_name b w flag = build_market_hash_name b' w' flag' →
  w = w'
  ∧ (if flag then STATTRAK_PREFIX else []) ++ strip b
    = (if flag' then STATTRAK_PREFIX else []) ++ strip b'
  ∧ (flag = flag' → strip b = strip b').
Proof.
  intros Hw Hw'. rewrite !build_market_hash_name_eq by done.
  intros [-> Hx]%wear_suffix_inj; [|done..].
  split; [done|]. split; [done|]. intros ->. by apply app_inv_head in Hx.
Qed.

Lemma build_determines_wear_and_base_witness :
  str_of "Field-Tested" = str_of "Field-Tested"
  ∧ STATTRAK_PREFIX ++ strip (str_of "  AK-47 | Redline")
    = STATTRAK_PREFIX ++ strip (str_of "AK-47 | Redline ")
  ∧ (true = true → strip (str_of "  AK-47 | Redline") = strip (str_of "AK-47 | Redline ")).
Proof.
  apply (build_determines_wear_and_base
           (str_of "  AK-47 | Redline") (str_of "AK-47 | Redline ")
           (str_of "Field-Tested") (str_of "Field-Tested") true true).
  - by_decide.
  - by_decide.
  - vm_compute. reflexivity.
Defined.

End BuildProperties.

(** ** Fuzzy catalog matcher: scores and the price found *)

Module MatcherProperties.

Import Samples StripFacts PyFloat SortFacts MatcherFacts.

Lemma startswith_contains p s : startswith p s = true → contains p s = true.
Proof. destruct s; simpl; by intros ->. Qed.

(** A score of 100 is given to a candidate equal to the target and to no
    other; any other candidate scores at most 80, at most 30 when it does not
    start with the target and at most 0 when it does not hold it. *)
Theorem match_score_bounds (target candidate : pystr) :
  (_match_score target candidate = 100%Z ↔ candidate = target)
  ∧ (candidate ≠ target →
       (_match_score target candidate ≤ 80)%Z
       ∧ (startswith target candidate = false → (_match_score target candidate ≤ 30)%Z)
       ∧ (contains target candidate = false → (_match_score target candidate ≤ 0)%Z)).
Proof.
  unfold _match_score, str_eqb.
  pose proof (Z.abs_nonneg (Z.of_nat (length candidate) - Z.of_nat (length target))) as Habs.
  pose proof (Z.div_pos _ 2 Habs ltac:(lia)) as Hdiv.
  pose proof (startswith_contains target candidate) as Hsc.
  destruct (bool_decide (candidate = target)) eqn:E.
  - apply bool_decide_eq_true in E. split; [done|]. done.
  - apply bool_decide_eq_false in E.
    destruct (startswith target candidate), (contains target candidate);
      try (specialize (Hsc eq_refl); discriminate Hsc);
      (split; [split; [lia|done]|]); intros _; repeat split; intros; try done; lia.
Qed.

Section WithLower.

Variable lower : pystr → pystr.

Lemma candidate_of_matches mhn it c :
  candidate_of lower (_norm lower (Some mhn)) (_norm lower (Some (_simplify mhn))) it
  = Some c →
  min_price it = Some c.1.1
  ∧ (exact_entry lower mhn it = true ∨ partial_entry lower mhn it = true).
Proof.
  intros Hc. split; [by eapply candidate_of_price|].
  unfold candidate_of in Hc. unfold partial_entry, exact_entry.
  destruct (min_price it); [|done].
  destruct (str_eqb (_norm lower (item_name it)) (_norm lower (Some mhn))); [by left|].
  destruct (nonempty _ && contains _ _) eqn:E; [|done].
  right. apply andb_true_iff in E as [-> ->]. done.
Qed.

Lemma candidate_of_none mhn it :
  candidate_of lower (_norm lower (Some mhn)) (_norm lower (Some (_simplify mhn))) it
  = None →
  min_price it = None
  ∨ (exact_entry lower mhn it = false ∧ partial_entry lower mhn it = false).
Proof.
  unfold candidate_of, partial_entry, exact_entry.
  destruct (min_price it); [|by left].
  destruct (str_eqb (_norm lower (item_name it)) (_norm lower (Some mhn))); [done|].
  destruct (nonempty _ && contains _ _) eqn:E; [done|].
  intros _. right. split; [done|]. by rewrite andb_true_l.
Qed.

(** The price returned is the price of a catalogue record that matches the
    identifier, exactly or partially; no price is returned only when no
    priced record matches. *)
Theorem find_min_price_from_catalogue (items : list item) (mhn : pystr) (debug : bool) :
  match (skinport_find_min_price_usd lower items mhn debug).1 with
  | Some price =>
      ∃ it, it ∈ items ∧ min_price it = Some price
            ∧ (exact_entry lower mhn it = true ∨ partial_entry lower mhn it = true)
  | None =>
      ∀ it, it ∈ items →
            min_price it = None
            ∨ (exact_entry lower mhn it = false ∧ partial_entry lower mhn it = false)
  end.
Proof.
  unfold skinport_find_min_price_usd.
  destruct (collect_candidates lower items mhn) as [|c0 cs] eqn:E.
  - cbn [fst]. intros it Hit. apply candidate_of_none.
    destruct (candidate_of _ _ _ it) as [c|] eqn:Ec; [|done].
    assert (c ∈ collect_candidates lower items mhn) as Hin.
    { apply elem_of_collect_candidates. eauto. }
    rewrite E in Hin. by apply elem_of_nil in Hin.
  - pose proof (sort_by_perm sort_key key_lt (c0 :: cs)) as Hperm.
    destruct (sort_by sort_key key_lt (c0 :: cs)) as [|b rest].
    { by apply Permutation_nil_cons in Hperm. }
    assert (b ∈ c0 :: cs) as Hin by (rewrite <- Hperm; left).
    rewrite <- E in Hin. cbn [hd]. destruct b as [[bv br] bs]. cbn [fst].
    apply elem_of_collect_candidates in Hin as (it & Hit & Hc).
    apply candidate_of_matches in Hc as [Hp Hm]. eauto.
Qed.

(** On a catalogue whose prices are numbers, the price found does not depend
    on the order of the records: on two arrangements of the same records the
    matcher finds nothing both times, or two prices that compare equal. *)
Theorem find_min_price_order_independent
    (items items' : list item) (mhn : pystr) (debug debug' : bool) :
  items ≡ₚ items' → prices_are_numbers items = true →
  match (skinport_find_min_price_usd lower items mhn debug).1,
        (skinport_find_min_price_usd lower items' mhn debug').1 with
  | Some p, Some p' => PrimFloat.eqb p p' = true
  | None, None => True
  | _, _ => False
  end.
Proof.
  intros Hperm Hnum.
  assert (prices_are_numbers items' = true) as Hnum'.
  { unfold prices_are_numbers in *. rewrite forallb_forall in Hnum |- *.
    intros it Hit. apply Hnum. rewrite <- list_elem_of_In in Hit |- *. by rewrite Hperm. }
  assert (collect_candidates lower items mhn ≡ₚ collect_candidates lower items' mhn)
    as Hc by (unfold collect_candidates; by rewrite Hperm).
  pose proof (collect_candidates_numbers lower items mhn Hnum) as Hok.
  pose proof (collect_candidates_numbers lower items' mhn Hnum') as Hok'.
  unfold skinport_find_min_price_usd.
  destruct (collect_candidates lower items mhn) as [|c0 cs],
           (collect_candidates lower items' mhn) as [|c0' cs'].
  - done.
  - by apply Permutation_nil_cons in Hc.
  - symmetry in Hc. by apply Permutation_nil_cons in Hc.
  - assert (∀ x, x ∈ c0 :: cs ↔ x ∈ c0' :: cs') as Hiff by (intros x; by rewrite Hc).
    destruct (best_candidate_first c0 cs Hok) as [Hin Hmin].
    destruct (best_candidate_first c0' cs' Hok') as [Hin' Hmin'].
    apply Hiff in Hin. apply Hiff in Hin'.
    destruct (Hmin _ Hin') as [H1 _]. destruct (Hmin' _ Hin) as [H2 _].
    destruct (hd c0 _) as [[bv br] bs], (hd c0' _) as [[bv' br'] bs'].
    cbn [fst] in *. by rewrite eqb_leb, H1, H2.
Qed.

End WithLower.

Lemma find_min_price_order_independent_witness :
  match (skinport_find_min_price_usd ascii_lower redline_catalog redline_ft false).1,
        (skinport_find_min_price_usd ascii_lower (reverse redline_catalog) redline_ft true).1
  with
  | Some p, Some p' => PrimFloat.eqb p p' = true
  | None, None => True
  | _, _ => False
  end.
Proof.
  apply (find_min_price_order_independent ascii_lower redline_catalog
           (reverse redline_catalog) redline_ft false true).
  - symmetry. apply reverse_Permutation.
  - reflexivity.
Defined.

End MatcherProperties.

(** ** The simplified identifier of a built name *)

Module SimplifyProperties.

Import StripFacts ParserTheorems.

Lemma remove_char_absent c s : c ∉ s → remove_char c s = s.
Proof.
  unfold remove_char. induction s as [|x s IH]; [done|].
  intros [Hx Hs]%not_elem_of_cons. cbn [List.filter].
  destruct (x =? c)%N eqn:E; [apply N.eqb_eq in E; by subst|].
  cbn. by rewrite IH.
Qed.

Lemma has_char_true c s : has_char c s = true ↔ c ∈ s.
Proof.
  unfold has_char. rewrite existsb_exists. split.
  - intros (x & Hx & ->%N.eqb_eq). by apply list_elem_of_In.
  - intros H. exists c. split; [by apply list_elem_of_In|apply N.eqb_refl].
Qed.

Lemma rfind_from_absent c s i last : c ∉ s → rfind_from c s i last = last.
Proof.
  revert i last. induction s as [|x s IH]; intros i last; [done|].
  intros [Hx Hs]%not_elem_of_cons. cbn [rfind_from].
  destruct (x =? c)%N eqn:E; [apply N.eqb_eq in E; by subst|]. by apply IH.
Qed.

(** [rfind] points at the last occurrence. *)
Lemma rfind_last c a b : c ∉ b → rfind c (a ++ c :: b) = Some (length a).
Proof.
  intros Hb. unfold rfind. generalize (@None nat) as last.
  change (length a) with (0 + length a). generalize 0 as i.
  induction a as [|x a IH]; intros i last.
  - cbn [app rfind_from]. rewrite N.eqb_refl, rfind_from_absent by done.
    f_equal. simpl. lia.
  - cbn [app rfind_from]. rewrite IH. f_equal. simpl. lia.
Qed.

Lemma lstrip_app_l x y : lstrip x ≠ [] → lstrip (x ++ y) = lstrip x ++ y.
Proof.
  induction x as [|a x IH]; [done|]. simpl.
  destruct (is_space a); [apply IH|done].
Qed.

(** Trailing whitespace is looked for behind the last non-blank character
    only. *)
Lemma rstrip_app_r a b : rstrip b ≠ [] → rstrip (a ++ b) = a ++ rstrip b.
Proof.
  unfold rstrip. intros Hb. rewrite reverse_app, lstrip_app_l.
  - by rewrite reverse_app, reverse_involutive.
  - intros H. apply Hb. by rewrite H.
Qed.

Lemma rstrip_snoc_space s c : is_space c = true → rstrip (s ++ [c]) = rstrip s.
Proof. intros Hc. unfold rstrip. rewrite reverse_snoc. simpl. by rewrite Hc. Qed.

(** The simplified form of a composed identifier is the identifier without
    its wear suffix: the base name, after the StatTrak prefix when the flag
    is on.  (Base names without parentheses, black star or surrounding
    whitespace, and not empty.) *)
Theorem simplify_build_drops_wear (base w : pystr) (flag : bool) :
  base ≠ [] → strip base = base → LPAREN ∉ base → STAR ∉ base → w ∈ WEARS →
  _simplify (build_market_hash_name base w flag)
  = (if flag then STATTRAK_PREFIX else []) ++ base.
Proof.
  intros Hne Hs Hl Hstar Hw. unfold build_market_hash_name.
  rewrite Hs, (strip_wear w Hw).
  destruct base as [|c b]; [done|]. clear Hne.
  pose proof (strip_fixed_head c b Hs) as Hc.
  assert (rstrip (c :: b) = c :: b) as Hrs.
  { unfold strip in Hs. by rewrite (lstrip_cons_nonspace c b Hc) in Hs. }
  assert ((STAR ∉ w) ∧ (LPAREN ∉ w ++ [RPAREN])) as [Hsw Hlw].
  { revert w Hw. apply wears_cases; split; by_decide. }
  set (pfx := if flag then STATTRAK_PREFIX else []).
  assert ((if flag then STATTRAK_PREFIX ++ (c :: b) ++ [32%N; LPAREN] ++ w ++ [RPAREN]
           else (c :: b) ++ [32%N; LPAREN] ++ w ++ [RPAREN])
          = ((pfx ++ c :: b) ++ [32%N]) ++ LPAREN :: w ++ [RPAREN]) as ->.
  { unfold pfx. destruct flag; by rewrite <- ?app_assoc. }
  assert ((STAR ∉ pfx) ∧ ∃ h t, pfx ++ c :: b = h :: t ∧ is_space h = false)
    as [Hsp (h & t & Hht & Hh)].
  { unfold pfx. destruct flag.
    - split; [by_decide|]. by eexists _, _.
    - split; [by apply not_elem_of_nil|]. by exists c, b. }
  unfold _simplify.
  rewrite remove_char_absent.
  2:{ repeat first [ done
                   | apply not_elem_of_app; split
                   | apply not_elem_of_cons; split
                   | apply not_elem_of_nil
                   | by_decide ]. }
  assert (strip (((pfx ++ c :: b) ++ [32%N]) ++ LPAREN :: w ++ [RPAREN])
          = ((pfx ++ c :: b) ++ [32%N]) ++ LPAREN :: w ++ [RPAREN]) as ->.
  { rewrite Hht.
    replace (((h :: t) ++ [32%N]) ++ LPAREN :: w ++ [RPAREN])
      with ((h :: t) ++ ([32%N; LPAREN] ++ w) ++ [RPAREN])
      by (by rewrite <- !app_assoc).
    by apply strip_app_ends. }
  assert (has_char LPAREN (((pfx ++ c :: b) ++ [32%N]) ++ LPAREN :: w ++ [RPAREN]) = true)
    as ->.
  { apply has_char_true, elem_of_app. right. left. }
  assert (has_char RPAREN (((pfx ++ c :: b) ++ [32%N]) ++ LPAREN :: w ++ [RPAREN]) = true)
    as ->.
  { apply has_char_true, elem_of_app. right. right. apply elem_of_app. right. left. }
  cbn [andb]. rewrite (rfind_last LPAREN _ _ Hlw), take_app_length.
  unfold strip. rewrite Hht at 1. rewrite <- app_comm_cons, (lstrip_cons_nonspace h _ Hh).
  rewrite app_comm_cons, <- Hht, rstrip_snoc_space by done.
  rewrite rstrip_app_r; by rewrite Hrs.
Qed.

Lemma simplify_build_drops_wear_witness :
  _simplify (build_market_hash_name (str_of "AK-47 | Redline") (str_of "Well-Worn") true)
  = STATTRAK_PREFIX ++ str_of "AK-47 | Redline".
Proof.
  apply (simplify_build_drops_wear (str_of "AK-47 | Redline") (str_of "Well-Worn") true).
  - discriminate.
  - vm_compute. reflexivity.
  - by_decide.
  - by_decide.
  - by_decide.
Defined.

End SimplifyProperties.

(** ** Fee model: what the schedule cannot change *)

Module FeesProperties.

Import Fees.

(** With the ["market_fees"] mapping in place, the buyer total on "steam" is
    the listing price whatever the schedule configures for it, and a
    marketplace other than "steam", "skinport" and "skinbaron" (the names are
    case-sensitive) gets the price back from both functions, its configured
    rates being ignored. *)
Theorem fees_schedule_ignored
    (cfg : fees_cfg) (fees : gmap pystr (gmap pystr float))
    (market : pystr) (price : float) :
  cfg !! MARKET_FEES = Some fees →
  apply_buyer_total_usd STEAM price cfg = Ok price
  ∧ (market ≠ STEAM → market ≠ SKINPORT → market ≠ SKINBARON →
       apply_buyer_total_usd market price cfg = Ok price
       ∧ apply_seller_net_usd market price cfg = Ok price).
Proof.
  intros Hcfg. unfold apply_buyer_total_usd, apply_seller_net_usd, str_eqb.
  rewrite Hcfg. split.
  - by rewrite bool_decide_eq_true_2.
  - intros H1 H2 H3. by rewrite !bool_decide_eq_false_2.
Qed.

Lemma fees_schedule_ignored_witness :
  let cfg : fees_cfg :=
    {[ MARKET_FEES := {[ STEAM := {[ BUYER_EXTRA_RATE := 0.5%float ]};
                         str_of "Steam" := {[ SELLER_FEE_RATE := 0.5%float ]} ]} ]} in
  apply_buyer_total_usd STEAM 100 cfg = Ok 100%float
  ∧ (str_of "Steam" ≠ STEAM → str_of "Steam" ≠ SKINPORT → str_of "Steam" ≠ SKINBARON →
       apply_buyer_total_usd (str_of "Steam") 100 cfg = Ok 100%float
       ∧ apply_seller_net_usd (str_of "Steam") 100 cfg = Ok 100%float).
Proof.
  cbv zeta.
  apply (fees_schedule_ignored _
           {[ STEAM := {[ BUYER_EXTRA_RATE := 0.5%float ]};
              str_of "Steam" := {[ SELLER_FEE_RATE := 0.5%float ]} ]}
           (str_of "Steam") 100%float).
  vm_compute. reflexivity.
Defined.

End FeesProperties.

(** ** Comparison orchestrator: the cap and the debug toggle *)

Module OrchestratorProperties.

Import Orchestrator DebugColumn OrchestratorFacts.

Section WithWorld.

Variable lower : pystr → pystr.
Variable World : Type.
Variable steam_get_price_usd : pystr → World → option float * World.

#[local] Abbreviation loop := (run_check_loop lower World steam_get_price_usd).

(** Running the loop over two lists in a row is running it over their
    concatenation. *)
Lemma run_check_loop_app sp_items show_debug watch1 watch2 rows_out w :
  loop sp_items show_debug (watch1 ++ watch2) rows_out w
  = let '(rows1, w1) := loop sp_items show_debug watch1 rows_out w in
    loop sp_items show_debug watch2 rows1 w1.
Proof.
  revert rows_out w. induction watch1 as [|mh watch1 IH]; intros rows_out w; [done|].
  cbn [app Orchestrator.run_check_loop].
  destruct (Orchestrator.check_one lower World steam_get_price_usd sp_items show_debug mh w)
    as [row w1].
  apply IH.
Qed.

End WithWorld.

(** Capping a run at [max_items] gives the first [max_items] rows of the run
    over the whole watchlist: the rows of the first identifiers do not depend
    on the identifiers after them. *)
Theorem run_check_cap_is_prefix
    (lower : pystr → pystr) (World : Type)
    (steam_get_price_usd : pystr → World → option float * World)
    (sp_items : list item) (show_debug : bool)
    (watchlist : list pystr) (max_items : nat) (w : World) :
  (run_check lower World steam_get_price_usd sp_items show_debug watchlist max_items w).1
  = take max_items
      (run_check lower World steam_get_price_usd sp_items show_debug
         watchlist (length watchlist) w).1.
Proof.
  unfold run_check. rewrite firstn_all.
  rewrite <- (take_drop max_items watchlist) at 2.
  rewrite run_check_loop_app.
  destruct (run_check_loop_appends lower World steam_get_price_usd sp_items show_debug
              (take max_items watchlist) [] w) as (rows1 & Hrows1 & Hn & _).
  destruct (run_check_loop lower World steam_get_price_usd sp_items show_debug
              (take max_items watchlist) [] w) as [r1 w1].
  cbn [fst] in Hrows1. rewrite app_nil_l in Hrows1. subst r1.
  destruct (run_check_loop_appends lower World steam_get_price_usd sp_items show_debug
              (drop max_items watchlist) rows1 w1) as (rows2 & -> & Hn2 & _).
  cbn [fst]. apply (f_equal length) in Hn. rewrite length_fmap, length_take in Hn.
  destruct (decide (max_items ≤ length watchlist)) as [Hle|Hgt].
  - by rewrite take_app_length' by lia.
  - rewrite drop_ge in Hn2 by lia. apply fmap_nil_inv in Hn2 as ->.
    rewrite app_nil_r. by rewrite take_ge by lia.
Qed.

Section WithWorld.

Variable lower : pystr → pystr.
Variable World : Type.
Variable steam_get_price_usd : pystr → World → option float * World.

#[local] Abbreviation check_one := (check_one lower World steam_get_price_usd).
#[local] Abbreviation run_check_loop := (run_check_loop lower World steam_get_price_usd).

Lemma check_one_debug sp_items show_debug mh w :
  let r := check_one sp_items show_debug mh w in
  (drop_debug r.1, r.2) = check_one sp_items false mh w
  ∧ match_debug r.1
    = if show_debug
      then Some (skinport_find_min_price_usd lower sp_items mh true).2 else None.
Proof.
  unfold Orchestrator.check_one.
  destruct (skinport_find_min_price_usd lower sp_items mh true) as [sp reason].
  destruct (steam_get_price_usd mh w) as [answer w']. done.
Qed.

Lemma run_check_loop_debug sp_items show_debug watch rows_out w :
  let r := run_check_loop sp_items show_debug watch rows_out w in
  (drop_debug <$> r.1, r.2)
  = run_check_loop sp_items false watch (drop_debug <$> rows_out) w
  ∧ (Forall (λ r, is_Some (match_debug r) ↔ show_debug = true) rows_out →
     Forall (λ r, is_Some (match_debug r) ↔ show_debug = true) r.1).
Proof.
  cbv zeta. revert rows_out w. induction watch as [|mh watch IH]; intros rows_out w.
  - done.
  - cbn [Orchestrator.run_check_loop].
    destruct (check_one_debug sp_items show_debug mh w) as [Hrow Hdbg].
    cbv zeta in Hrow, Hdbg.
    destruct (check_one sp_items show_debug mh w) as [row w1].
    cbn [fst snd] in Hrow, Hdbg. rewrite <- Hrow.
    destruct (IH (rows_out ++ [row]) w1) as [H1 H2].
    rewrite fmap_app in H1. split; [exact H1|].
    intros Hall. apply H2. apply Forall_app. split; [done|].
    constructor; [|constructor]. rewrite Hdbg. destruct show_debug.
    + split; [done|]. intros _. by eexists.
    + split; [|done]. intros H. by apply is_Some_None in H.
Qed.

End WithWorld.

(** The debug toggle adds the match_debug column and changes nothing else:
    the rows of a run with the toggle on, less that column, are the rows of
    the run with the toggle off, and the requests leave the outside world in
    the same state.  A row has the column exactly when the toggle is on. *)
Theorem run_check_debug_adds_only_column
    (lower : pystr → pystr) (World : Type)
    (steam_get_price_usd : pystr → World → option float * World)
    (sp_items : list item) (show_debug : bool)
    (watchlist : list pystr) (max_items : nat) (w : World) :
  let r := run_check lower World steam_get_price_usd
             sp_items show_debug watchlist max_items w in
  (drop_debug <$> r.1, r.2)
  = run_check lower World steam_get_price_usd sp_items false watchlist max_items w
  ∧ Forall (λ row, is_Some (match_debug row) ↔ show_debug = true) r.1.
Proof.
  cbv zeta. unfold run_check.
  destruct (run_check_loop_debug lower World steam_get_price_usd
              sp_items show_debug (take max_items watchlist) [] w) as [H1 H2].
  split; [exact H1|]. apply H2. constructor.
Qed.

End OrchestratorProperties.

(** ** Watchlist: pasting, round trips, what stays *)

Module WatchlistProperties.

Import Watchlist WatchlistFacts.

(** The handler counts a line exactly when it appends it. *)
Lemma add_pasted_names_count lines added st :
  Forall (λ mh, mh ≠ []) lines →
  let r := add_pasted_names lines added st in
  length (get_watchlist r.1) + added = length (get_watchlist st) + r.2
  ∧ get_watchlist st `prefix_of` get_watchlist r.1
  ∧ (∀ mh, mh ∈ lines → mh ∈ get_watchlist r.1).
Proof.
  cbv zeta. intros Hne. revert added st.
  induction Hne as [|mh lines Hmh Hne IH]; intros added st.
  - cbn. split; [lia|]. split; [done|]. intros mh H. by apply elem_of_nil in H.
  - cbn [add_pasted_names].
    destruct (str_in mh (get_watchlist st)) eqn:E; cbn [negb].
    + destruct (IH added st) as (H1 & H2 & H3). split; [done|]. split; [done|].
      intros x [->|Hx]%elem_of_cons; [|by apply H3].
      apply str_in_true in E. destruct H2 as [k ->]. apply elem_of_app. by left.
    + destruct (IH (S added) (add_to_watchlist mh st)) as (H1 & H2 & H3).
      assert (get_watchlist (add_to_watchlist mh st) = get_watchlist st ++ [mh]) as Hadd.
      { rewrite get_add, E. destruct mh; [done|]. done. }
      rewrite Hadd in H1, H2. rewrite length_app in H1. cbn in H1.
      split; [lia|]. split.
      * etrans; [|exact H2]. by apply prefix_app_r.
      * intros x [->|Hx]%elem_of_cons; [|by apply H3].
        destruct H2 as [k ->]. apply elem_of_app. left. apply elem_of_app. right. by left.
Qed.

Lemma pasted_lines_nonempty raw_lines : Forall (λ mh, mh ≠ []) (pasted_lines raw_lines).
Proof.
  unfold pasted_lines. apply Forall_forall. intros mh Hmh.
  apply list_elem_of_In, filter_In in Hmh as [_ Hne]. by destruct mh.
Qed.

(** "Add pasted names" reports exactly how many names it appended: the
    watchlist grows by the number shown, keeps its former entries in front,
    and afterwards holds every non-blank pasted line, stripped. *)
Theorem paste_reports_names_added (raw_lines : list pystr) (st : session_state) :
  let r := add_pasted_names (pasted_lines raw_lines) 0 st in
  length (get_watchlist r.1) = length (get_watchlist st) + r.2
  ∧ get_watchlist st `prefix_of` get_watchlist r.1
  ∧ (∀ line, line ∈ raw_lines → strip line ≠ [] → strip line ∈ get_watchlist r.1).
Proof.
  cbv zeta.
  destruct (add_pasted_names_count (pasted_lines raw_lines) 0 st
              (pasted_lines_nonempty raw_lines)) as (H1 & H2 & H3).
  split; [lia|]. split; [done|]. intros line Hline Hne. apply H3.
  unfold pasted_lines. apply list_elem_of_In, filter_In. split.
  - apply list_elem_of_In. by apply list_elem_of_fmap_2.
  - by destruct (strip line).
Qed.

Lemma filter_absent mh (l : list pystr) :
  mh ∉ l → List.filter (λ x, negb (str_eqb x mh)) l = l.
Proof.
  induction l as [|x l IH]; [done|]. intros [Hx Hl]%not_elem_of_cons.
  cbn [List.filter]. unfold str_eqb at 1. rewrite bool_decide_eq_false_2 by done.
  cbn [negb]. f_equal. by apply IH.
Qed.

(** Removing a name that was just added to a list that did not hold it gives
    the list back, and removing a name the list does not hold changes
    nothing. *)
Theorem watchlist_add_remove_round_trip (st : session_state) (mh : pystr) :
  mh ∉ get_watchlist st →
  get_watchlist (remove_from_watchlist mh (add_to_watchlist mh st)) = get_watchlist st
  ∧ get_watchlist (remove_from_watchlist mh st) = get_watchlist st.
Proof.
  intros Hmh. rewrite !get_remove, get_add. split; [|by apply filter_absent].
  destruct (nonempty mh && negb (str_in mh (get_watchlist st))).
  - rewrite List.filter_app. cbn [List.filter]. unfold str_eqb at 2.
    rewrite bool_decide_eq_true_2 by done. cbn [negb].
    rewrite app_nil_r. by apply filter_absent.
  - by apply filter_absent.
Qed.

Lemma watchlist_add_remove_round_trip_witness :
  let st := {| watchlist := Some [str_of "AWP | Asiimov (Field-Tested)"] |} in
  let mh := str_of "AK-47 | Redline (Field-Tested)" in
  get_watchlist (remove_from_watchlist mh (add_to_watchlist mh st)) = get_watchlist st
  ∧ get_watchlist (remove_from_watchlist mh st) = get_watchlist st.
Proof.
  cbv zeta.
  apply (watchlist_add_remove_round_trip
           {| watchlist := Some [str_of "AWP | Asiimov (Field-Tested)"] |}
           (str_of "AK-47 | Redline (Field-Tested)")).
  apply (proj1 (str_in_false _ _)). vm_compute. reflexivity.
Defined.

Lemma add_no_empty mh st :
  [] ∉ get_watchlist st → [] ∉ get_watchlist (add_to_watchlist mh st).
Proof.
  intros Hst. rewrite get_add. destruct (nonempty mh) eqn:E; [|done].
  destruct (negb _); [|done]. cbn [andb].
  apply not_elem_of_app. split; [done|].
  intros <-%list_elem_of_singleton. done.
Qed.

Lemma add_pasted_no_empty lines added st :
  [] ∉ get_watchlist st → [] ∉ get_watchlist (add_pasted_names lines added st).1.
Proof.
  revert added st. induction lines as [|mh lines IH]; intros added st Hst; [done|].
  cbn [add_pasted_names]. destruct (negb _); [|by apply IH].
  apply IH. by apply add_no_empty.
Qed.

Lemma script_run_no_empty st ev :
  [] ∉ get_watchlist st → [] ∉ get_watchlist (script_run st ev).
Proof.
  intros Hst. rewrite <- get_ensure in Hst. unfold script_run.
  destruct ev as [mh|mh|raw_lines].
  - destruct (str_in _ _); [done|]. by apply add_no_empty.
  - rewrite elem_of_remove. by intros [? _].
  - by apply add_pasted_no_empty.
Qed.

(** Whatever the user does, the watchlist never holds the empty name, and a
    name that was added stays until it is removed: a run of the script drops
    no name other than the one whose removal was clicked. *)
Theorem session_keeps_names (events : list event) :
  ([] ∉ get_watchlist (session events))
  ∧ (∀ st ev x, x ∈ get_watchlist st → ev ≠ ClickRemove x →
       x ∈ get_watchlist (script_run st ev)).
Proof.
  split.
  - unfold session.
    assert (∀ st, [] ∉ get_watchlist st → [] ∉ get_watchlist (foldl script_run st events))
      as H; [|apply H, not_elem_of_nil].
    induction events as [|ev events IH]; intros st Hst; [done|].
    cbn [foldl]. apply IH. by apply script_run_no_empty.
  - intros st ev x Hx Hev. rewrite <- get_ensure in Hx. unfold script_run.
    destruct ev as [mh|mh|raw_lines].
    + destruct (str_in _ _); [done|]. rewrite get_add.
      destruct (_ && _); [|done]. apply elem_of_app. by left.
    + apply elem_of_remove. split; [done|]. congruence.
    + destruct (add_pasted_names_count (pasted_lines raw_lines) 0 (ensure_watchlist st)
                  (pasted_lines_nonempty raw_lines)) as (_ & [k ->] & _).
      apply elem_of_app. by left.
Qed.

End WatchlistProperties.

(** ** Markup removal *)

Module HtmlProperties.

Import Html StripFacts SimplifyProperties.

Lemma has_char_remove_tags c m s :
  has_char c (remove_tags m s) = true → has_char c s = true.
Proof.
  revert m. induction s as [|x s IH]; intros m; [done|]. cbn [remove_tags].
  rewrite !has_char_true in *. setoid_rewrite has_char_true in IH.
  destruct m.
  - intros H. right. by eapply IH.
  - destruct ((x =? LT)%N && has_char GT s).
    + intros H. right. by eapply IH.
    + intros [->|H]%elem_of_cons; [left|right]. by eapply IH.
Qed.

Lemma remove_tags_tag_free m s : tag_free (remove_tags m s) = true.
Proof.
  revert m. induction s as [|x s IH]; intros m; [done|]. cbn [remove_tags].
  destruct m; [apply IH|].
  destruct ((x =? LT)%N && has_char GT s) eqn:E; [apply IH|].
  cbn [tag_free]. rewrite IH, andb_true_r. apply negb_true_iff.
  apply andb_false_iff in E as [->|E]; [done|].
  apply andb_false_iff. right. apply not_true_is_false. intros H.
  apply has_char_remove_tags in H. congruence.
Qed.

Lemma remove_tags_fixed s : tag_free s = true → remove_tags false s = s.
Proof.
  induction s as [|x s IH]; [done|]. cbn [tag_free remove_tags].
  intros [Hx Hs]%andb_true_iff. apply negb_true_iff in Hx. rewrite Hx.
  by rewrite IH.
Qed.

Lemma tag_free_app_l a b : tag_free (a ++ b) = true → tag_free a = true.
Proof.
  induction a as [|x a IH]; [done|]. cbn [app tag_free].
  intros [Hx Ha]%andb_true_iff. rewrite (IH Ha), andb_true_r.
  apply negb_true_iff. apply negb_true_iff in Hx.
  apply andb_false_iff in Hx as [->|Hx]; [done|].
  apply andb_false_iff. right. apply not_true_is_false. intros H.
  apply has_char_true in H.
  assert (has_char GT (a ++ b) = true); [|congruence].
  apply has_char_true, elem_of_app. by left.
Qed.

Lemma tag_free_app_r a b : tag_free (a ++ b) = true → tag_free b = true.
Proof.
  induction a as [|x a IH]; [done|]. cbn [app tag_free].
  intros [_ Ha]%andb_true_iff. by apply IH.
Qed.

Lemma lstrip_suffix s : ∃ k, s = k ++ lstrip s.
Proof.
  induction s as [|x s [k IH]]; [by exists []|]. simpl.
  destruct (is_space x); [|by exists []].
  exists (x :: k). simpl. by f_equal.
Qed.

Lemma rstrip_prefix s : ∃ k, s = rstrip s ++ k.
Proof.
  unfold rstrip. destruct (lstrip_suffix (reverse s)) as [k Hk].
  exists (reverse k). rewrite <- reverse_app, <- Hk. by rewrite reverse_involutive.
Qed.

Lemma strip_tag_free s : tag_free s = true → tag_free (strip s) = true.
Proof.
  intros H. unfold strip.
  destruct (lstrip_suffix s) as [k Hk]. rewrite Hk in H. apply tag_free_app_r in H.
  destruct (rstrip_prefix (lstrip s)) as [k' Hk']. rewrite Hk' in H.
  by apply tag_free_app_l in H.
Qed.

Lemma no_lt_tag_free l : LT ∉ l → tag_free l = true.
Proof.
  induction l as [|x l IH]; [done|].
  intros [Hx Hl]%not_elem_of_cons. cbn [tag_free].
  rewrite (IH Hl), andb_true_r.
  destruct (x =? LT)%N eqn:E; [apply N.eqb_eq in E; by subst|done].
Qed.

(** What [_strip_html] returns holds no tag any more (no ["<"] with a [">"]
    after it) and has no surrounding whitespace, so applying it again changes
    nothing; text without ["<"] is merely stripped. *)
Theorem strip_html_idempotent (s : option pystr) :
  tag_free (_strip_html s) = true
  ∧ strip (_strip_html s) = _strip_html s
  ∧ _strip_html (Some (_strip_html s)) = _strip_html s
  ∧ (LT ∉ default [] s → _strip_html s = strip (default [] s)).
Proof.
  unfold _strip_html.
  assert (tag_free (strip (remove_tags false (default [] s))) = true) as Htf.
  { apply strip_tag_free, remove_tags_tag_free. }
  split; [done|]. split; [apply strip_idem|]. split.
  - cbn [default from_option id]. rewrite (remove_tags_fixed _ Htf). apply strip_idem.
  - intros Hlt. f_equal. by apply remove_tags_fixed, no_lt_tag_free.
Qed.

Example strip_html_sample :
  _strip_html (Some (str_of "  <span class=a>$12.34</span> USD <b "))
  = str_of "$12.34 USD <b".
Proof. vm_compute. reflexivity. Qed.

End HtmlProperties.

(** ** The gallery grid *)

Module GridProperties.

Import Grid.

Section Place.

Context {A : Type} (groups : list A) (grid_cols : nat).
Hypothesis cols_pos : 0 < grid_cols.

#[local] Abbreviation place := (place grid_cols).
#[local] Abbreviation drawn := (drawn groups grid_cols).

Lemma fill_row_drawn row m j idx shown :
  drawn idx shown → j + m = grid_cols →
  (idx < length groups → idx = row * grid_cols + j) →
  let r := fill_row groups row (seq j m) idx shown in
  drawn r.1 r.2 ∧ r.1 = min (idx + m) (length groups).
Proof.
  cbv zeta. revert j idx shown.
  induction m as [|m IH]; intros j idx shown [Hle Hshown] Hjm Hidx.
  - cbn. split; [done|]. lia.
  - cbn [seq fill_row]. destruct (groups !! idx) as [g|] eqn:Hg.
    + pose proof (lookup_lt_Some _ _ _ Hg) as Hlt. specialize (Hidx Hlt).
      destruct (IH (S j) (S idx) (shown ++ [(row, j, g)])) as [Hd Hr].
      * split; [lia|]. rewrite (take_S_r _ _ _ Hg), imap_app, <- Hshown.
        f_equal. cbn. rewrite length_take, Nat.min_l, Nat.add_0_r by lia.
        unfold place. subst idx.
        rewrite <- (Nat.div_unique (row * grid_cols + j) grid_cols row j) by lia.
        rewrite <- (Nat.mod_unique (row * grid_cols + j) grid_cols row j) by lia.
        done.
      * lia.
      * intros _. lia.
      * split; [done|]. lia.
    + apply lookup_ge_None in Hg. cbn. split; [done|]. lia.
Qed.

Lemma fill_rows_drawn m row idx shown :
  drawn idx shown → idx = min (row * grid_cols) (length groups) →
  let r := fill_rows groups grid_cols (seq row m) idx shown in
  drawn r.1 r.2 ∧ r.1 = min ((row + m) * grid_cols) (length groups).
Proof.
  cbv zeta. revert row idx shown.
  induction m as [|m IH]; intros row idx shown Hd Hidx.
  - cbn. split; [done|]. by rewrite Nat.add_0_r.
  - cbn [seq fill_rows].
    destruct (fill_row_drawn row grid_cols 0 idx shown Hd) as [Hd' Hr]; [lia|lia|].
    destruct (fill_row groups row (seq 0 grid_cols) idx shown) as [idx' shown'].
    cbn [fst snd] in Hd', Hr.
    destruct (IH (S row) idx' shown' Hd') as [Hd'' Hr'']; [lia|].
    split; [done|]. rewrite Hr''. f_equal. lia.
Qed.

End Place.

(** On a grid with at least one column the gallery draws every group exactly
    once, in order, filling each row from left to right: the [k]-th group
    stands in row [k / grid_cols], column [k mod grid_cols]. *)
Theorem gallery_shows_every_group {A} (groups : list A) (grid_cols : nat) :
  0 < grid_cols →
  gallery groups grid_cols
  = Some (imap (place grid_cols) groups).
Proof.
  intros Hpos. unfold gallery.
  destruct groups as [|g0 groups0] eqn:Hgroups; [done|].
  rewrite <- Hgroups. clear Hgroups.
  destruct (Nat.eqb_spec grid_cols 0) as [->|_]; [lia|]. f_equal.
  destruct (fill_rows_drawn groups grid_cols Hpos
              ((length groups + grid_cols - 1) `div` grid_cols) 0 0 [])
    as [[_ Hshown] Hidx].
  - split; [lia|]. by rewrite take_0.
  - done.
  - rewrite Hshown, Hidx. rewrite Nat.min_r, firstn_all; [done|].
    pose proof (Nat.div_mod_eq (length groups + grid_cols - 1) grid_cols) as Hdm.
    pose proof (Nat.mod_upper_bound (length groups + grid_cols - 1) grid_cols) as Hub.
    cbn [plus]. nia.
Qed.

Lemma gallery_shows_every_group_witness :
  gallery [str_of "a"; str_of "b"; str_of "c"; str_of "d"] 3
  = Some [ (0, 0, str_of "a"); (0, 1, str_of "b"); (0, 2, str_of "c");
           (1, 0, str_of "d") ].
Proof. apply (gallery_shows_every_group [str_of "a"; str_of "b"; str_of "c"; str_of "d"] 3). lia. Defined.

End GridProperties.

(** ** Grouping of search results *)

Module GalleryFacts.

Import Gallery SortFacts.

Lemma str_eqb_true a b : str_eqb a b = true ↔ a = b.
Proof. apply bool_decide_eq_true. Qed.

Lemma str_eqb_false a b : str_eqb a b = false ↔ a ≠ b.
Proof. apply bool_decide_eq_false. Qed.

Section Dict.

Context {V : Type}.
Implicit Types (G : list (pystr * V)) (k b : pystr) (f : V → V).

Lemma groups_get_None k G : groups_get k G = None ↔ k ∉ G.*1.
Proof.
  induction G as [|[k' v] G IH]; simpl.
  - split; [intros _; apply not_elem_of_nil|done].
  - rewrite not_elem_of_cons. destruct (str_eqb k' k) eqn:E.
    + apply str_eqb_true in E. split; [done|]. intros [? _]. by subst.
    + apply str_eqb_false in E. rewrite IH. split; [|by intros [_ ?]].
      intros ?. split; [|done]. by intros ->.
Qed.

Lemma groups_get_Some k v G : groups_get k G = Some v → (k, v) ∈ G.
Proof.
  induction G as [|[k' v'] G IH]; simpl; [done|].
  destruct (str_eqb k' k) eqn:E.
  - apply str_eqb_true in E. intros [= ->]. subst. left.
  - intros H. right. by apply IH.
Qed.

Lemma groups_get_elem k v G : NoDup G.*1 → (k, v) ∈ G → groups_get k G = Some v.
Proof.
  induction G as [|[k' v'] G IH]; simpl.
  - intros _ H. by apply elem_of_nil in H.
  - intros [Hk Hnd]%NoDup_cons [[= -> ->]|Hin]%elem_of_cons.
    + by rewrite (proj2 (str_eqb_true k' k')).
    + destruct (str_eqb k' k) eqn:E; [|by apply IH].
      apply str_eqb_true in E. subst k'. exfalso. apply Hk.
      apply list_elem_of_fmap. by exists (k, v).
Qed.

Lemma groups_get_app k G H :
  groups_get k (G ++ H)
  = match groups_get k G with Some v => Some v | None => groups_get k H end.
Proof.
  induction G as [|[k' v'] G IH]; simpl; [done|].
  destruct (str_eqb k' k); [done|apply IH].
Qed.

Lemma groups_update_keys k f G : (groups_update k f G).*1 = G.*1.
Proof.
  induction G as [|[k' v'] G IH]; [done|]. cbn [groups_update].
  destruct (str_eqb k' k); rewrite !fmap_cons; [done|]. by rewrite IH.
Qed.

Lemma groups_get_update_eq k f G :
  groups_get k (groups_update k f G) = f <$> groups_get k G.
Proof.
  induction G as [|[k' v'] G IH]; [done|]. cbn [groups_update groups_get].
  destruct (str_eqb k' k) eqn:E; cbn [groups_get]; rewrite E; [done|apply IH].
Qed.

Lemma groups_get_update_ne k b f G :
  k ≠ b → groups_get b (groups_update k f G) = groups_get b G.
Proof.
  intros Hne. induction G as [|[k' v'] G IH]; [done|]. cbn [groups_update groups_get].
  destruct (str_eqb k' k) eqn:E; cbn [groups_get].
  - apply str_eqb_true in E. subst k'.
    by rewrite (proj2 (str_eqb_false k b) Hne).
  - destruct (str_eqb k' b); [done|apply IH].
Qed.

End Dict.

Lemma summary_snoc base ms r g :
  summary base ms = Some g → summary base (ms ++ [r]) = Some (absorb r g).
Proof.
  destruct ms as [|r0 ms]; [done|]. cbn [summary app]. intros [= <-].
  by rewrite app_comm_cons, foldl_snoc.
Qed.

Lemma summary_None base ms : summary base ms = None → ms = [].
Proof. by destruct ms. Qed.

Lemma members_snoc_eq b rs r :
  group_key r = Some b → members b (rs ++ [r]) = members b rs ++ [r].
Proof.
  intros Hk. unfold members. rewrite List.filter_app. cbn [List.filter].
  by rewrite bool_decide_eq_true_2.
Qed.

Lemma members_snoc_ne b rs r :
  group_key r ≠ Some b → members b (rs ++ [r]) = members b rs.
Proof.
  intros Hk. unfold members. rewrite List.filter_app. cbn [List.filter].
  rewrite bool_decide_eq_false_2 by done. apply app_nil_r.
Qed.

(** The dictionary after the loop: one entry per base name met, holding the
    summary of the results of that base name. *)
Lemma groups_after_loop results :
  let G := foldl group_step [] results in
  NoDup G.*1 ∧ ∀ b, groups_get b G = summary b (members b results).
Proof.
  cbv zeta. induction results as [|r rs IH] using rev_ind.
  - split; [constructor|done].
  - rewrite foldl_snoc. destruct IH as [Hnd Hget].
    set (G := foldl group_step [] rs) in *. unfold group_step.
    destruct (group_key r) as [base|] eqn:Hk.
    + destruct (groups_get base G) as [g|] eqn:Hg.
      * split; [by rewrite groups_update_keys|]. intros b.
        destruct (decide (base = b)) as [<-|Hne].
        -- rewrite groups_get_update_eq, Hg, (members_snoc_eq base rs r Hk).
           cbn. symmetry. apply summary_snoc. by rewrite <- Hget.
        -- rewrite groups_get_update_ne, members_snoc_ne by congruence. apply Hget.
      * pose proof Hg as Hnotin. apply groups_get_None in Hnotin.
        split.
        -- rewrite groups_update_keys, fmap_app. apply NoDup_app. split; [done|].
           split; [|apply NoDup_singleton].
           intros x Hx ->%list_elem_of_singleton. done.
        -- intros b. destruct (decide (base = b)) as [<-|Hne].
           ++ rewrite groups_get_update_eq, groups_get_app, Hg. cbn.
              rewrite (proj2 (str_eqb_true base base) eq_refl).
              rewrite (members_snoc_eq base rs r Hk).
              rewrite Hget in Hg. apply summary_None in Hg. by rewrite Hg.
           ++ rewrite groups_get_update_ne, groups_get_app by done.
              rewrite members_snoc_ne by congruence. rewrite <- Hget.
              destruct (groups_get b G); [done|]. cbn.
              by rewrite (proj2 (str_eqb_false base b) Hne).
    + split; [done|]. intros b. rewrite members_snoc_ne by congruence. apply Hget.
Qed.

(** What reading results does to a group, field by field. *)
Lemma fold_absorb ms g0 :
  length (a_samples g0) ≤ 3 →
  let g := foldl (λ g r, absorb r g) g0 ms in
  a_base_name g = a_base_name g0
  ∧ a_samples g = take 3 (a_samples g0 ++ ms)
  ∧ a_seen_stattrak g = a_seen_stattrak g0 || existsb sr_is_stattrak ms
  ∧ a_seen_nonstattrak g
    = a_seen_nonstattrak g0 || existsb (λ r, negb (sr_is_stattrak r)) ms
  ∧ a_icon_url g
    = (if truthy (a_icon_url g0) then a_icon_url g0
       else match List.find (λ r, truthy (sr_icon_url r)) ms with
            | Some r => sr_icon_url r
            | None => a_icon_url g0
            end)
  ∧ (∀ w, w ∈ a_seen_wears g
          ↔ w ∈ a_seen_wears g0 ∨ (w ≠ [] ∧ ∃ r, r ∈ ms ∧ sr_wear r = Some w)).
Proof.
  cbv zeta. revert g0. induction ms as [|r ms IH]; intros g0 Hlen.
  - cbn. rewrite app_nil_r, take_ge, !orb_false_r by done.
    repeat split; try done.
    + by destruct (truthy (a_icon_url g0)).
    + by left.
    + intros [?|[_ (r & Hr & _)]]; [done|]. by apply elem_of_nil in Hr.
  - cbn [foldl].
    destruct (IH (absorb r g0)) as (Hn & Hs & Hst & Hnst & Hi & Hw).
    { unfold absorb. cbn [a_samples].
      destruct (Nat.ltb_spec (length (a_samples g0)) 3); [|lia].
      rewrite length_app. cbn [length]. lia. }
    rewrite Hn, Hs, Hst, Hnst, Hi. cbn [absorb a_base_name a_samples a_seen_stattrak
      a_seen_nonstattrak a_icon_url a_seen_wears existsb List.find].
    split; [done|]. split; [|split; [|split; [|split]]].
    + destruct (Nat.ltb_spec (length (a_samples g0)) 3).
      * by rewrite <- app_assoc.
      * rewrite !take_app_le by lia. done.
    + destruct (sr_is_stattrak r), (a_seen_stattrak g0); done.
    + destruct (sr_is_stattrak r), (a_seen_nonstattrak g0); done.
    + destruct (truthy (a_icon_url g0)) eqn:Eg; cbn [negb andb].
      * by rewrite Eg.
      * destruct (truthy (sr_icon_url r)) eqn:Er; [by rewrite Er|].
        rewrite Eg. done.
    + intros w. rewrite Hw. cbn [absorb a_seen_wears].
      destruct (sr_wear r) as [[|c w0]|] eqn:Ewear.
      * split.
        -- intros [?|[Hne (r' & Hr' & Hw')]]; [by left|]. right. split; [done|].
           exists r'. split; [by right|done].
        -- intros [?|[Hne (r' & [->|Hr']%elem_of_cons & Hw')]]; [by left| |].
           ++ congruence.
           ++ right. eauto.
      * rewrite elem_of_union, elem_of_singleton. split.
        -- intros [[->|?]|[Hne (r' & Hr' & Hw')]].
           ++ right. split; [done|]. exists r. split; [left|done].
           ++ by left.
           ++ right. split; [done|]. exists r'. split; [by right|done].
        -- intros [?|[Hne (r' & [->|Hr']%elem_of_cons & Hw')]].
           ++ left. by right.
           ++ left. left. congruence.
           ++ right. eauto.
      * split.
        -- intros [?|[Hne (r' & Hr' & Hw')]]; [by left|]. right. split; [done|].
           exists r'. split; [by right|done].
        -- intros [?|[Hne (r' & [->|Hr']%elem_of_cons & Hw')]]; [by left| |].
           ++ congruence.
           ++ right. eauto.
Qed.

(** The summary of a base name, field by field. *)
Lemma summary_fields base ms g :
  summary base ms = Some g →
  ms ≠ []
  ∧ a_base_name g = base
  ∧ a_samples g = take 3 ms
  ∧ a_seen_stattrak g = existsb sr_is_stattrak ms
  ∧ a_seen_nonstattrak g = existsb (λ r, negb (sr_is_stattrak r)) ms
  ∧ a_icon_url g = first_icon ms
  ∧ (∀ w, w ∈ a_seen_wears g ↔ w ≠ [] ∧ ∃ r, r ∈ ms ∧ sr_wear r = Some w).
Proof.
  destruct ms as [|r0 ms]; [done|]. cbn [summary]. intros [= <-].
  destruct (fold_absorb (r0 :: ms) (new_group base r0)) as (Hn & Hs & Hst & Hnst & Hi & Hw).
  { cbn. lia. }
  cbn [foldl] in Hn, Hs, Hst, Hnst, Hi, Hw.
  rewrite Hn, Hs, Hst, Hnst, Hi. cbn [new_group a_base_name a_samples a_seen_stattrak
    a_seen_nonstattrak a_icon_url a_seen_wears app orb].
  repeat split; try done.
  - unfold first_icon. cbn [List.find head mbind option_bind].
    destruct (truthy (sr_icon_url r0)); [done|].
    by destruct (List.find _ ms).
  - apply Hw in H. destruct H as [H|[? ?]]; [|done].
    cbn in H. by apply elem_of_empty in H.
  - apply Hw in H. destruct H as [H|[? ?]]; [|done].
    cbn in H. by apply elem_of_empty in H.
  - intros [Hne Hr]. apply Hw. by right.
Qed.

(** String order. *)
Lemma str_lt_asym a b : str_lt a b = true → str_lt b a = false.
Proof.
  revert b. induction a as [|x a IH]; intros [|y b]; simpl; try done.
  destruct (N.ltb_spec x y), (N.ltb_spec y x), (N.eqb_spec x y), (N.eqb_spec y x);
    try done; try lia. apply IH.
Qed.

Lemma str_le_trans a b c :
  str_lt b a = false → str_lt c b = false → str_lt c a = false.
Proof.
  revert b c. induction a as [|x a IH]; intros [|y b] [|z c]; simpl; try done.
  destruct (N.ltb_spec y x), (N.ltb_spec z y), (N.ltb_spec z x),
    (N.eqb_spec y x), (N.eqb_spec z y), (N.eqb_spec z x);
    try done; try lia. apply IH.
Qed.

Lemma group_step_length G r : length (group_step G r) ≤ S (length G).
Proof.
  unfold group_step. destruct (group_key r) as [base|]; [|lia].
  rewrite <- (length_fmap fst), groups_update_keys, length_fmap.
  destruct (groups_get base G); [lia|]. rewrite length_app. cbn. lia.
Qed.

Lemma groups_count results : length (foldl group_step [] results) ≤ length results.
Proof.
  induction results as [|r rs IH] using rev_ind; [done|].
  rewrite foldl_snoc, length_app. cbn.
  pose proof (group_step_length (foldl group_step [] rs) r). lia.
Qed.

End GalleryFacts.

Module GalleryProperties.

Import Gallery Search SearchSamples SortFacts GalleryFacts.

Section WithRuntime.

Variable lower : pystr → pystr.
Variable set_iter : gset pystr → list pystr.

(** Every returned group is the finished summary of its base name. *)
Lemma group_by_base_elem results g :
  g ∈ group_by_base lower set_iter results ↔
  ∃ acc, summary (a_base_name acc) (members (a_base_name acc) results) = Some acc
         ∧ g = finish_group set_iter acc.
Proof.
  unfold group_by_base. cbv zeta. rewrite sort_by_perm, list_elem_of_fmap.
  destruct (groups_after_loop results) as [Hnd Hget]. cbv zeta in Hnd, Hget.
  split.
  - intros ([k acc] & -> & Hin). exists acc. split; [|done].
    apply (groups_get_elem _ _ _ Hnd) in Hin. rewrite Hget in Hin.
    destruct (summary_fields _ _ _ Hin) as (_ & -> & _). done.
  - intros (acc & Hs & ->). exists (a_base_name acc, acc). split; [done|].
    apply groups_get_Some. by rewrite Hget.
Qed.

Lemma members_nonempty b results :
  members b results ≠ [] ↔ ∃ r, r ∈ results ∧ group_key r = Some b.
Proof.
  unfold members. split.
  - intros Hne. destruct (List.filter _ results) as [|r l] eqn:E; [done|].
    assert (In r (List.filter (λ r, bool_decide (group_key r = Some b)) results)) as Hin
      by (rewrite E; by left).
    apply filter_In in Hin as [Hin Hk]. apply bool_decide_eq_true in Hk.
    exists r. split; [by apply list_elem_of_In|done].
  - intros (r & Hr & Hk) E.
    assert (In r (List.filter (λ r, bool_decide (group_key r = Some b)) results)) as Hin.
    { apply filter_In. split; [by apply list_elem_of_In|by apply bool_decide_eq_true]. }
    by rewrite E in Hin.
Qed.

(** The names of the groups returned are the keys of the dictionary. *)
Lemma group_names_perm (results : list search_result) :
  g_base_name <$> group_by_base lower set_iter results
  ≡ₚ (foldl group_step [] results).*1.
Proof.
  destruct (groups_after_loop results) as [Hnd Hget]. cbv zeta in Hnd, Hget.
  unfold group_by_base. cbv zeta. rewrite sort_by_perm.
  apply eq_subrelation; [apply _|].
  assert (∀ l : list (pystr * group_acc),
    (∀ k acc, (k, acc) ∈ l → a_base_name acc = k) →
    g_base_name <$> ((λ kv, finish_group set_iter kv.2) <$> l) = l.*1) as Hmap.
  { induction l as [|[k acc] l IH]; intros Hl; [done|].
    rewrite !fmap_cons. cbn [finish_group g_base_name fst snd]. f_equal.
    - apply Hl. apply list_elem_of_here.
    - apply IH. intros k' acc' Hin. apply Hl. by apply list_elem_of_further. }
  apply Hmap. intros k acc Hi.
  apply (groups_get_elem _ _ _ Hnd) in Hi.
  rewrite Hget in Hi. by destruct (summary_fields _ _ _ Hi) as (_ & -> & _).
Qed.

(** The keys of the dictionary are the base names met among the results. *)
Lemma group_keys_elem (results : list search_result) b :
  b ∈ (foldl group_step [] results).*1 ↔ ∃ r, r ∈ results ∧ group_key r = Some b.
Proof.
  destruct (groups_after_loop results) as [Hnd Hget]. cbv zeta in Hnd, Hget.
  rewrite <- members_nonempty.
  destruct (groups_get b (foldl group_step [] results)) as [acc|] eqn:E.
  - split.
    + intros _. rewrite Hget in E. by destruct (summary_fields _ _ _ E) as [? _].
    + intros _. apply groups_get_Some in E. apply list_elem_of_fmap. by exists (b, acc).
  - split.
    + intros Hin. apply groups_get_None in E. done.
    + intros Hne. rewrite Hget in E. by apply summary_None in E.
Qed.

(** [group_by_base] returns one group per base name met among the results,
    no base name twice, in the order of the lowercased base names. *)
Theorem group_by_base_names (results : list search_result) :
  let out := group_by_base lower set_iter results in
  NoDup (g_base_name <$> out)
  ∧ (∀ b, b ∈ g_base_name <$> out ↔ ∃ r, r ∈ results ∧ group_key r = Some b)
  ∧ StronglySorted
      (λ g1 g2, str_lt (lower (g_base_name g2)) (lower (g_base_name g1)) = false) out.
Proof.
  cbv zeta. split; [|split].
  - rewrite group_names_perm. apply groups_after_loop.
  - intros b. rewrite group_names_perm. apply group_keys_elem.
  - apply (sort_by_sorted _ str_lt (λ _, True)).
    + intros a b _ _. apply str_lt_asym.
    + intros a b c _ _ _. apply str_le_trans.
    + by apply Forall_forall.
Qed.

(** What a group holds: its samples are the first three results of its base
    name, the two StatTrak flags say whether a StatTrak and a plain result
    were met, and the icon is the first non-empty one (failing that, the icon
    entry of the first result of the group). *)
Theorem group_by_base_contents (results : list search_result) (g : group) :
  g ∈ group_by_base lower set_iter results →
  let ms := members (g_base_name g) results in
  ms ≠ []
  ∧ samples g = take 3 ms
  ∧ seen_stattrak g = existsb sr_is_stattrak ms
  ∧ seen_nonstattrak g = existsb (λ r, negb (sr_is_stattrak r)) ms
  ∧ (seen_stattrak g || seen_nonstattrak g) = true
  ∧ g_icon_url g = first_icon ms.
Proof.
  intros (acc & Hs & ->)%group_by_base_elem. cbv zeta.
  cbn [finish_group g_base_name samples seen_stattrak seen_nonstattrak g_icon_url].
  destruct (summary_fields _ _ _ Hs) as (Hne & _ & Hsm & Hst & Hnst & Hi & _).
  rewrite Hsm, Hst, Hnst, Hi. repeat split; try done.
  destruct (members (a_base_name acc) results) as [|r ms]; [done|].
  cbn [existsb]. destruct (sr_is_stattrak r); cbn [negb orb]; [done|].
  apply orb_true_r.
Qed.

Lemma StronglySorted_weaken {A} (R R' : A → A → Prop) l :
  (∀ x y, R x y → R' x y) → StronglySorted R l → StronglySorted R' l.
Proof.
  intros HR Hs. induction Hs as [|x l Hs IH Hx]; constructor; [done|].
  eapply Forall_impl; [exact Hx|]. auto.
Qed.

(** Sorting by [wear_rank] puts the wears in the order of their ranks. *)
Lemma wear_sort_sorted (l : list pystr) :
  StronglySorted (λ a b, wear_rank a ≤ wear_rank b) (sort_by wear_rank Nat.ltb l).
Proof.
  apply (StronglySorted_weaken (may_precede wear_rank Nat.ltb)).
  - unfold may_precede. intros x y H. apply Nat.ltb_ge in H. lia.
  - apply (sort_by_sorted _ Nat.ltb (λ _, True)).
    + intros a b _ _ H. apply Nat.ltb_lt in H. apply Nat.ltb_ge. lia.
    + intros a b c _ _ _ H1 H2. apply Nat.ltb_ge in H1, H2. apply Nat.ltb_ge. lia.
    + by apply Forall_forall.
Qed.

(** The wears of a group are the non-empty wears met among its results, each
    once, ordered by their position in [WEARS] (unknown wears last),
    whatever order the set hands its elements out in. *)
Theorem group_by_base_wears (results : list search_result) (g : group) :
  (∀ s, set_iter s ≡ₚ elements s) →
  g ∈ group_by_base lower set_iter results →
  NoDup (seen_wears g)
  ∧ StronglySorted (λ a b, wear_rank a ≤ wear_rank b) (seen_wears g)
  ∧ (∀ w, w ∈ seen_wears g
          ↔ w ≠ [] ∧ ∃ r, r ∈ members (g_base_name g) results ∧ sr_wear r = Some w).
Proof.
  intros Hiter (acc & Hs & ->)%group_by_base_elem.
  cbn [finish_group g_base_name seen_wears].
  destruct (summary_fields _ _ _ Hs) as (_ & _ & _ & _ & _ & _ & Hw).
  split; [|split].
  - rewrite sort_by_perm, Hiter. apply NoDup_elements.
  - apply wear_sort_sorted.
  - intros w. rewrite sort_by_perm, Hiter, elem_of_elements. apply Hw.
Qed.

End WithRuntime.

Lemma group_by_base_contents_witness :
  redline_group ∈ group_by_base ascii_lower elements redline_results
  ∧ let ms := members (g_base_name redline_group) redline_results in
    ms ≠ []
    ∧ samples redline_group = take 3 ms
    ∧ seen_stattrak redline_group = existsb sr_is_stattrak ms
    ∧ seen_nonstattrak redline_group = existsb (λ r, negb (sr_is_stattrak r)) ms
    ∧ (seen_stattrak redline_group || seen_nonstattrak redline_group) = true
    ∧ g_icon_url redline_group = first_icon ms.
Proof.
  assert (redline_group ∈ group_by_base ascii_lower elements redline_results) as Hg.
  { vm_compute. apply list_elem_of_here. }
  split; [exact Hg|].
  exact (group_by_base_contents ascii_lower elements redline_results redline_group Hg).
Defined.

Lemma group_by_base_wears_witness :
  NoDup (seen_wears redline_group)
  ∧ StronglySorted (λ a b, wear_rank a ≤ wear_rank b) (seen_wears redline_group)
  ∧ (∀ w, w ∈ seen_wears redline_group
          ↔ w ≠ [] ∧ ∃ r, r ∈ members (g_base_name redline_group) redline_results
                          ∧ sr_wear r = Some w).
Proof.
  apply (group_by_base_wears ascii_lower elements redline_results redline_group).
  - intros s. reflexivity.
  - vm_compute. apply list_elem_of_here.
Defined.

End GalleryProperties.

(** ** Steam price text *)

Module PriceTextProperties.

Import PriceText SearchSamples.

Section Filter.

Variable keep : N → bool.
Hypothesis keep_space : ∀ c, is_space c = true → keep c = false.

Lemma filter_lstrip s : List.filter keep (lstrip s) = List.filter keep s.
Proof.
  induction s as [|c s IH]; [done|]. cbn [lstrip].
  destruct (is_space c) eqn:E; [|done].
  cbn [List.filter]. by rewrite (keep_space _ E).
Qed.

Lemma filter_reverse (s : pystr) : List.filter keep (reverse s) = reverse (List.filter keep s).
Proof.
  induction s as [|c s IH]; [done|].
  rewrite reverse_cons, List.filter_app, IH. cbn [List.filter].
  destruct (keep c); [by rewrite reverse_cons|by rewrite app_nil_r].
Qed.

Lemma filter_strip s : List.filter keep (strip s) = List.filter keep s.
Proof.
  unfold strip, rstrip.
  rewrite filter_reverse, filter_lstrip, filter_reverse, reverse_involutive.
  apply filter_lstrip.
Qed.

End Filter.

Lemma filter_replace isdigit s :
  List.filter (λ ch, isdigit ch || (ch =? DOT)%N) (replace_char COMMA DOT s)
  = replace_char COMMA DOT (significant isdigit s).
Proof.
  unfold replace_char, significant. induction s as [|c s IH]; [done|].
  rewrite fmap_cons. cbn [List.filter]. rewrite IH.
  destruct (c =? COMMA)%N eqn:E.
  - rewrite N.eqb_refl, !orb_true_r. by rewrite fmap_cons, E.
  - rewrite orb_false_r. destruct (isdigit c || (c =? DOT)%N); [|done].
    by rewrite fmap_cons, E.
Qed.

Section WithRuntime.

Variable isdigit : N → bool.
Variable py_float : pystr → option float.
Hypothesis space_not_digit : ∀ c, is_space c = true → isdigit c = false.

Lemma parse_price_text_significant s :
  _parse_price_text isdigit py_float (Some s)
  = let filtered := replace_char COMMA DOT (significant isdigit s) in
    if nonempty filtered then py_float filtered else None.
Proof.
  unfold _parse_price_text. cbv zeta. cbn [default].
  rewrite filter_replace. unfold significant. rewrite filter_strip; [done|].
  intros c Hc. rewrite (space_not_digit _ Hc). cbn [orb].
  apply orb_false_iff. split; apply N.eqb_neq; intros ->; by vm_compute in Hc.
Qed.

End WithRuntime.

(** The price read from a text depends only on its digits, dots and commas,
    in their order: currency signs, letters and blanks anywhere in the text
    change nothing, and a text with no digit, dot or comma gives no price,
    as does a missing text. *)
Theorem parse_price_text_reads_digits
    (isdigit : N → bool) (py_float : pystr → option float) (a b : pystr) :
  (∀ c, is_space c = true → isdigit c = false) →
  significant isdigit a = significant isdigit b →
  _parse_price_text isdigit py_float (Some a) = _parse_price_text isdigit py_float (Some b)
  ∧ (significant isdigit a = [] → _parse_price_text isdigit py_float (Some a) = None)
  ∧ _parse_price_text isdigit py_float None = None.
Proof.
  intros Hsp Hab. rewrite !parse_price_text_significant by done. cbv zeta.
  rewrite Hab. split; [done|]. split; [|done]. intros Hb. by rewrite <- Hab, Hb in *.
Qed.

Lemma ascii_isdigit_not_space c : is_space c = true → ascii_isdigit c = false.
Proof.
  intros Hc. unfold ascii_isdigit. apply andb_false_iff.
  destruct (N.leb_spec 48 c) as [H1|H1]; [|by left]. right.
  destruct (N.leb_spec c 57) as [H2|H2]; [|done]. exfalso.
  unfold is_space in Hc.
  repeat match type of Hc with
  | context [(?x <=? ?y)%N] => destruct (N.leb_spec x y); try lia
  | context [(?x =? ?y)%N] => destruct (N.eqb_spec x y); try lia
  end; cbn in Hc; done.
Qed.

Lemma parse_price_text_reads_digits_witness :
  _parse_price_text ascii_isdigit sample_float (Some (str_of " $12.50 USD"))
  = _parse_price_text ascii_isdigit sample_float (Some (str_of "12.50"))
  ∧ (significant ascii_isdigit (str_of " $12.50 USD") = [] →
     _parse_price_text ascii_isdigit sample_float (Some (str_of " $12.50 USD")) = None)
  ∧ _parse_price_text ascii_isdigit sample_float None = None.
Proof.
  exact (parse_price_text_reads_digits ascii_isdigit sample_float
           (str_of " $12.50 USD") (str_of "12.50") ascii_isdigit_not_space eq_refl).
Defined.

End PriceTextProperties.

(** ** Steam search results and the cards made of them *)

Module SearchProperties.

Import Html Gallery Search SearchSamples SortFacts GalleryFacts GalleryProperties ParserProperties.

Lemma index_of_Some x l i n :
  index_of x l i = Some n → i ≤ n ∧ l !! (n - i) = Some x.
Proof.
  revert i. induction l as [|y l IH]; intros i; [done|]. cbn [index_of].
  destruct (str_eqb y x) eqn:E.
  - intros [= <-]. apply str_eqb_true in E as ->. split; [lia|].
    by replace (i - i) with 0 by lia.
  - intros H. destruct (IH _ H) as [Hle Hl]. split; [lia|].
    replace (n - i) with (S (n - S i)) by lia. done.
Qed.

Lemma index_of_elem x l i : x ∈ l → is_Some (index_of x l i).
Proof.
  revert i. induction l as [|y l IH]; intros i Hin; [by apply elem_of_nil in Hin|].
  cbn [index_of]. destruct (str_eqb y x) eqn:E; [by eexists|].
  apply str_eqb_false in E. apply elem_of_cons in Hin as [->|Hin]; [done|].
  by apply IH.
Qed.

Lemma wear_rank_tier w : w ∈ WEARS → WEARS !! wear_rank w = Some w.
Proof.
  intros Hw. unfold wear_rank.
  destruct (index_of_elem w WEARS 0 Hw) as [n Hn]. rewrite Hn. cbn [default].
  apply index_of_Some in Hn as [_ Hn]. by rewrite Nat.sub_0_r in Hn.
Qed.

Lemma wear_rank_inj a b :
  a ∈ WEARS → b ∈ WEARS → wear_rank a = wear_rank b → a = b.
Proof.
  intros Ha Hb Hab. apply wear_rank_tier in Ha, Hb. rewrite Hab in Ha. congruence.
Qed.

Lemma sorted_strict (l : list pystr) :
  Forall (λ w, w ∈ WEARS) l → NoDup l →
  StronglySorted (λ a b, wear_rank a ≤ wear_rank b) l →
  StronglySorted (λ a b, wear_rank a < wear_rank b) l.
Proof.
  intros Hall Hnd Hs. induction Hs as [|x l Hs IH Hx]; [constructor|].
  apply Forall_cons in Hall as [Hxw Hall]. apply NoDup_cons in Hnd as [Hxl Hnd].
  constructor; [by apply IH|].
  apply Forall_forall. intros y Hy.
  rewrite Forall_forall in Hx, Hall.
  pose proof (Hx y Hy) as Hle.
  destruct (decide (wear_rank x = wear_rank y)) as [E|E]; [|lia].
  apply wear_rank_inj in E; [by subst|done|by apply Hall].
Qed.

(** The wear of a found item is a tier. *)
Lemma found_of_wear it f w : found_of it = Some f → f_wear f = Some w → w ∈ WEARS.
Proof.
  unfold found_of.
  destruct (py_or _ _) as [[|c m]|]; [done| |done].
  cbv zeta. intros [= <-]. cbn [f_wear]. apply parse_wear_tier.
Qed.

Section WithRuntime.

Variable lower : pystr → pystr.
Variable set_iter : gset pystr → list pystr.
Variable steam_search : pystr → Z → option (list api_item).

(** On the groups made from a Steam search, the wears of a card are tiers,
    listed in tier order without repetition; the card preselects the first
    of them, that is the best condition met, and Field-Tested where no wear
    was met. *)
Theorem gallery_card_default_wear
    (query : option pystr) (count : Z) (found : list found_item) (g : group) :
  (∀ s, set_iter s ≡ₚ elements s) →
  steam_search_items steam_search query count = Some found →
  g ∈ group_by_base lower set_iter (as_result <$> found) →
  Forall (λ w, w ∈ WEARS) (seen_wears g)
  ∧ StronglySorted (λ a b, wear_rank a < wear_rank b) (seen_wears g)
  ∧ WEARS !! default_wear_index g = Some (default_wear g)
  ∧ (∀ w, w ∈ seen_wears g → default_wear_index g ≤ wear_rank w)
  ∧ (seen_wears g = [] → default_wear g = str_of "Field-Tested" ∧ default_wear_index g = 2).
Proof.
  intros Hiter Hfound Hg.
  assert (NoDup (seen_wears g)
          ∧ StronglySorted (λ a b, wear_rank a ≤ wear_rank b) (seen_wears g)
          ∧ (∀ w, w ∈ seen_wears g →
               ∃ r, r ∈ as_result <$> found ∧ sr_wear r = Some w))
    as (Hnd & Hs & Hmem).
  { apply group_by_base_elem in Hg as (acc & Hsum & ->).
    cbn [finish_group seen_wears].
    destruct (summary_fields _ _ _ Hsum) as (_ & _ & _ & _ & _ & _ & Hw).
    split; [|split].
    - rewrite sort_by_perm, Hiter. apply NoDup_elements.
    - apply wear_sort_sorted.
    - intros w. rewrite sort_by_perm, Hiter, elem_of_elements.
      intros (_ & r & Hr & Hwear)%Hw. exists r. split; [|done].
      unfold members in Hr. apply list_elem_of_In, filter_In in Hr as [Hr _].
      by apply list_elem_of_In. }
  assert (Forall (λ w, w ∈ WEARS) (seen_wears g)) as Hall.
  { apply Forall_forall. intros w Hw. apply Hmem in Hw as (r & Hin & Hwear).
    apply list_elem_of_fmap in Hin as (f & -> & Hf). cbn [as_result sr_wear] in Hwear.
    unfold steam_search_items in Hfound. cbv zeta in Hfound.
    destruct (negb _).
    - injection Hfound as <-. by apply elem_of_nil in Hf.
    - destruct (steam_search _ _) as [results|]; [|done]. injection Hfound as <-.
      apply list_elem_of_omap in Hf as (it & _ & Hit). by eapply found_of_wear. }
  pose proof (sorted_strict _ Hall Hnd Hs) as Hstrict.
  split; [done|]. split; [done|].
  unfold default_wear_index, default_wear.
  destruct (seen_wears g) as [|w0 ws] eqn:E.
  - split; [done|]. split; [intros w Hw; by apply elem_of_nil in Hw|done].
  - apply Forall_cons in Hall as [Hw0 Hall].
    fold (wear_rank w0).
    assert (default 2 (index_of w0 WEARS 0) = wear_rank w0) as ->.
    { unfold wear_rank. by destruct (index_of_elem w0 WEARS 0 Hw0) as [n ->]. }
    split; [by apply wear_rank_tier|]. split; [|done].
    intros w [->|Hw]%elem_of_cons; [done|].
    apply StronglySorted_inv in Hstrict as [_ Hlt].
    rewrite Forall_forall in Hlt. specialize (Hlt w Hw). lia.
Qed.

End WithRuntime.

Section WithRuntime.

Variable lower : pystr → pystr.
Variable set_iter : gset pystr → list pystr.
Variable steam_search : pystr → Z → option (list api_item).

Lemma found_of_key it f :
  found_of it = Some f →
  f_market_hash_name f ≠ []
  ∧ f_name f ≠ []
  ∧ group_key (as_result f)
    = Some (if nonempty (f_base_name f) then f_base_name f else f_market_hash_name f).
Proof.
  unfold found_of.
  destruct (py_or _ _) as [[|c m]|]; [done| |done].
  cbv zeta. intros [= <-].
  cbn [f_market_hash_name f_name f_base_name as_result]. split; [done|]. split.
  - by destruct (_strip_html (api_name it)).
  - unfold group_key. cbn [sr_base_name sr_market_hash_name]. unfold py_or.
    by destruct (base_name (parse_market_hash_name (c :: m))).
Qed.

(** A blank query gives no items.  Every item found has a non-empty
    identifier and display name, and goes to a card of the gallery: the card
    of its base name, or of its full identifier where the base name is empty;
    there are no more cards than items. *)
Theorem search_items_all_grouped
    (query : option pystr) (count : Z) (found : list found_item) :
  steam_search_items steam_search query count = Some found →
  let groups := group_by_base lower set_iter (as_result <$> found) in
  (strip (default [] query) = [] → found = [])
  ∧ length groups ≤ length found
  ∧ (∀ f, f ∈ found →
       f_market_hash_name f ≠ [] ∧ f_name f ≠ []
       ∧ ∃ g, g ∈ groups
              ∧ g_base_name g
                = if nonempty (f_base_name f) then f_base_name f
                  else f_market_hash_name f).
Proof.
  intros Hfound. cbv zeta.
  split; [|split].
  - intros Hq. unfold steam_search_items in Hfound. cbv zeta in Hfound.
    rewrite Hq in Hfound. cbn in Hfound. congruence.
  - unfold group_by_base. cbv zeta.
    rewrite (Permutation_length (sort_by_perm _ _ _)), length_fmap.
    rewrite <- (length_fmap as_result found).
    generalize (as_result <$> found). intros results.
    apply groups_count.
  - intros f Hf.
    assert (∃ it, found_of it = Some f) as [it Hit].
    { unfold steam_search_items in Hfound. cbv zeta in Hfound.
      destruct (negb _).
      - injection Hfound as <-. by apply elem_of_nil in Hf.
      - destruct (steam_search _ _) as [results|]; [|done]. injection Hfound as <-.
        apply list_elem_of_omap in Hf as (it & _ & Hit). eauto. }
    destruct (found_of_key _ _ Hit) as (H1 & H2 & H3).
    split; [done|]. split; [done|].
    assert (∃ r, r ∈ as_result <$> found ∧ group_key r = Some
              (if nonempty (f_base_name f) then f_base_name f else f_market_hash_name f))
      as Hr.
    { exists (as_result f). split; [by apply list_elem_of_fmap_2|done]. }
    apply group_keys_elem in Hr.
    rewrite <- (group_names_perm lower set_iter) in Hr.
    apply list_elem_of_fmap in Hr as (g & Hg & Hin). eauto.
Qed.

End WithRuntime.

Lemma gallery_card_default_wear_witness :
  Forall (λ w, w ∈ WEARS) (seen_wears redline_group)
  ∧ StronglySorted (λ a b, wear_rank a < wear_rank b) (seen_wears redline_group)
  ∧ WEARS !! default_wear_index redline_group = Some (default_wear redline_group)
  ∧ (∀ w, w ∈ seen_wears redline_group → default_wear_index redline_group ≤ wear_rank w)
  ∧ (seen_wears redline_group = [] →
     default_wear redline_group = str_of "Field-Tested"
     ∧ default_wear_index redline_group = 2).
Proof.
  apply (gallery_card_default_wear ascii_lower elements (λ _ _, Some redline_search)
           (Some (str_of " redline ")) 60 redline_found redline_group).
  - intros s. reflexivity.
  - reflexivity.
  - vm_compute. apply list_elem_of_here.
Defined.

Lemma search_items_all_grouped_witness :
  let groups := group_by_base ascii_lower elements (as_result <$> redline_found) in
  (strip (str_of " redline ") = [] → redline_found = [])
  ∧ length groups ≤ length redline_found
  ∧ (∀ f, f ∈ redline_found →
       f_market_hash_name f ≠ [] ∧ f_name f ≠ []
       ∧ ∃ g, g ∈ groups
              ∧ g_base_name g
                = if nonempty (f_base_name f) then f_base_name f
                  else f_market_hash_name f).
Proof.
  apply (search_items_all_grouped ascii_lower elements (λ _ _, Some redline_search)
           (Some (str_of " redline ")) 60 redline_found).
  reflexivity.
Defined.

End SearchProperties.

(** ** Widget keys of the cards *)

Module CardKeysProperties.

Import CardKeys.

Lemma sub_runs_word in_run s : forallb is_word (sub_runs in_run s) = true.
Proof.
  revert in_run. induction s as [|c s IH]; intros in_run; [done|].
  cbn [sub_runs]. destruct (is_word c) eqn:E.
  - cbn [forallb]. by rewrite E, IH.
  - destruct in_run; [apply IH|]. cbn [forallb]. by rewrite IH.
Qed.

Lemma sub_runs_length in_run s : length (sub_runs in_run s) ≤ length s.
Proof.
  revert in_run. induction s as [|c s IH]; intros in_run; [done|].
  cbn [sub_runs]. destruct (is_word c); [|destruct in_run]; cbn [length].
  - specialize (IH false). lia.
  - specialize (IH true). lia.
  - specialize (IH true). lia.
Qed.

Lemma sub_runs_fixed in_run s : forallb is_word s = true → sub_runs in_run s = s.
Proof.
  revert in_run. induction s as [|c s IH]; intros in_run; [done|].
  cbn [forallb sub_runs]. intros [-> Hs]%andb_true_iff. f_equal. by apply IH.
Qed.

Lemma forallb_take {A} (f : A → bool) n (l : list A) :
  forallb f l = true → forallb f (take n l) = true.
Proof.
  revert n. induction l as [|x l IH]; intros [|n]; try done.
  cbn [forallb take]. intros [-> Hl]%andb_true_iff. by apply IH.
Qed.

(** The key of a card is made of ASCII letters, digits and underscores only
    and is at most 60 characters long, never longer than the base name; a
    base name that is already made of such characters is kept (up to its
    first 60 characters), so taking the key of a key changes nothing. *)
Theorem key_prefix_safe (base : pystr) :
  forallb is_word (key_prefix base) = true
  ∧ length (key_prefix base) ≤ 60 `min` length base
  ∧ (forallb is_word base = true → key_prefix base = take 60 base)
  ∧ key_prefix (key_prefix base) = key_prefix base.
Proof.
  assert (forallb is_word (key_prefix base) = true) as Hword
    by apply forallb_take, sub_runs_word.
  assert (length (key_prefix base) ≤ 60 `min` length base) as Hlen.
  { unfold key_prefix. rewrite length_take.
    pose proof (sub_runs_length false base). lia. }
  split; [done|]. split; [done|]. split.
  - intros Hbase. unfold key_prefix. by rewrite sub_runs_fixed.
  - unfold key_prefix at 1. rewrite sub_runs_fixed by done.
    apply take_ge. lia.
Qed.

Lemma sub_runs_separator in_run pre c c' post :
  is_word c = false → is_word c' = false →
  sub_runs in_run (pre ++ c :: post) = sub_runs in_run (pre ++ c' :: post).
Proof.
  intros Hc Hc'. revert in_run. induction pre as [|x pre IH]; intros in_run.
  - cbn [app sub_runs]. by rewrite Hc, Hc'.
  - rewrite <- !app_comm_cons. cbn [sub_runs].
    destruct (is_word x); [by rewrite IH|]. destruct in_run; by rewrite IH.
Qed.

(** The key does not tell separators apart: replacing a character outside
    the class by another one leaves the key as it is, so two different base
    names can have the same key. *)
Theorem key_prefix_blind_to_separators (pre post : pystr) (c c' : N) :
  is_word c = false → is_word c' = false →
  key_prefix (pre ++ c :: post) = key_prefix (pre ++ c' :: post).
Proof.
  intros Hc Hc'. unfold key_prefix. by rewrite (sub_runs_separator _ _ c c').
Qed.

Lemma key_prefix_blind_to_separators_witness :
  str_of "AK-47 | Redline" ≠ str_of "AK 47 | Redline"
  ∧ key_prefix (str_of "AK-47 | Redline") = key_prefix (str_of "AK 47 | Redline").
Proof.
  split; [by vm_compute|].
  apply (key_prefix_blind_to_separators (str_of "AK") (str_of "47 | Redline") 45 32).
  - reflexivity.
  - reflexivity.
Defined.

(** The key of a base name as the search returns them. *)
Example key_prefix_sample :
  key_prefix (str_of "AK-47 | Redline") = str_of "AK_47_Redline".
Proof. vm_compute. reflexivity. Qed.

End CardKeysProperties.
